(** * a2p entity hierarchy: enforced policies along the ancestor chain

    A shallow embedding of [examples/sdk/python/10-entity-hierarchy/main.py]:
    the data classes [EnforcedRule], [EntityProfile] and [EffectivePolicy],
    the module-level store [entities], and the three functions
    [get_ancestry], [compute_effective_policies] and
    [validate_policy_change], followed by the properties of the
    hierarchy enforcement that the specification states about them. *)

From Stdlib Require Import ZArith Ascii String Lia.
From stdpp Require Import gmap strings list fin_maps pretty.

(** ** Python values and the builtins the example calls *)

Module Py.

(** The values a field annotated [Any] holds in this development: [None],
    [bool], [int], [str] (code points below 256, one [ascii] each) and
    [list].  Floats and dicts are left out of the universe. *)
#[warnings="-register-all"]
Inductive Any : Type :=
| VNone
| VBool (b : bool)
| VInt (n : Z)
| VStr (s : string)
| VList (items : list Any).

(** The exceptions the modelled code can raise. *)
Inductive exn : Type := TypeError.

(** [a == b].  [bool] is a subclass of [int]: [True == 1].  Lists compare
    element by element. *)
Fixpoint py_eq (a b : Any) : bool :=
  match a, b with
  | VNone, VNone => true
  | VBool x, VBool y => Bool.eqb x y
  | VBool x, VInt y => (Z.b2z x =? y)%Z
  | VInt x, VBool y => (x =? Z.b2z y)%Z
  | VInt x, VInt y => (x =? y)%Z
  | VStr x, VStr y => bool_decide (x = y)
  | VList xs, VList ys =>
      (fix all2 (xs ys : list Any) {struct xs} : bool :=
         match xs, ys with
         | [], [] => true
         | x :: xs', y :: ys' => py_eq x y && all2 xs' ys'
         | _, _ => false
         end) xs ys
  | _, _ => false
  end.

(** [isinstance(v, (int, float))] on the values of [Any], with the number
    when it holds.  [Any] has no float, so the test holds of [bool] and
    [int] alone here: what the code does with a float, NaN included, is
    outside this development, and every statement below about numbers is
    a statement about [bool] and [int]. *)
Definition as_number (v : Any) : option Z :=
  match v with
  | VBool b => Some (Z.b2z b)
  | VInt n => Some n
  | _ => None
  end.

(** [isinstance(v, list)], with the items when it holds. *)
Definition as_list (v : Any) : option (list Any) :=
  match v with
  | VList items => Some items
  | _ => None
  end.

(** Whether [hash(v)] succeeds: lists are unhashable. *)
Definition hashable (v : Any) : bool :=
  match v with
  | VList _ => false
  | _ => true
  end.

(** [set(items)]: raises [TypeError] on an unhashable item.  The set is
    kept as the list of its items; only membership is ever asked of it. *)
Definition py_set (items : list Any) : exn + list Any :=
  if forallb hashable items then inr items else inl TypeError.

(** [v in s] for a set [s]: hashes [v] first. *)
Definition set_contains (s : list Any) (v : Any) : exn + bool :=
  if hashable v then inr (existsb (py_eq v) s) else inl TypeError.

(** [[v for v in new_value if v not in parent_set]]. *)
Fixpoint not_in_set (parent_set : list Any) (new_value : list Any)
  : exn + list Any :=
  match new_value with
  | [] => inr []
  | v :: rest =>
      match set_contains parent_set v with
      | inl e => inl e
      | inr found =>
          match not_in_set parent_set rest with
          | inl e => inl e
          | inr invalid => inr (if found then invalid else v :: invalid)
          end
      end
  end.

(** [sep.join(items)]: every item must be a [str]. *)
Fixpoint strs (items : list Any) : exn + list string :=
  match items with
  | [] => inr []
  | VStr s :: rest =>
      match strs rest with
      | inl e => inl e
      | inr ss => inr (s :: ss)
      end
  | _ :: _ => inl TypeError
  end.

Definition join (sep : string) (items : list Any) : exn + string :=
  match strs items with
  | inl e => inl e
  | inr ss => inr (String.concat sep ss)
  end.

(** Characters written by code. *)
Definition dquote : ascii := ascii_of_nat 34.
Definition squote : ascii := ascii_of_nat 39.
Definition backslash : ascii := ascii_of_nat 92.
Definition str1 (c : ascii) : string := String c EmptyString.

Definition hex_digit (n : N) : ascii :=
  match n with
  | 0 => "0" | 1 => "1" | 2 => "2" | 3 => "3" | 4 => "4" | 5 => "5"
  | 6 => "6" | 7 => "7" | 8 => "8" | 9 => "9" | 10 => "a" | 11 => "b"
  | 12 => "c" | 13 => "d" | 14 => "e" | _ => "f"
  end%char%N.

Definition hex2 (c : ascii) : string :=
  let n := N_of_ascii c in
  String (hex_digit (n / 16)) (str1 (hex_digit (n mod 16))).

Definition has_char (c : ascii) (s : string) : bool :=
  existsb (Ascii.eqb c) (list_ascii_of_string s).

(** [str.isprintable] on one code point below 256. *)
Definition printable (c : ascii) : bool :=
  let n := N_of_ascii c in
  ((32 <=? n) && (n <? 127) || (161 <=? n) && negb (n =? 173))%N.

(** [repr(s)] for a [str]. *)
Definition repr_char (q c : ascii) : string :=
  if Ascii.eqb c q || Ascii.eqb c backslash then String backslash (str1 c)
  else if Ascii.eqb c (ascii_of_nat 9) then String backslash "t"
  else if Ascii.eqb c (ascii_of_nat 10) then String backslash "n"
  else if Ascii.eqb c (ascii_of_nat 13) then String backslash "r"
  else if printable c then str1 c
  else String backslash ("x" +:+ hex2 c).

Definition repr_str (s : string) : string :=
  let q := if has_char squote s && negb (has_char dquote s)
           then dquote else squote in
  String q (String.concat EmptyString
              (map (repr_char q) (list_ascii_of_string s)) +:+ str1 q).

Fixpoint py_repr (v : Any) : string :=
  match v with
  | VNone => "None"
  | VBool true => "True"
  | VBool false => "False"
  | VInt n => pretty n
  | VStr s => repr_str s
  | VList items => "[" +:+ String.concat ", " (map py_repr items) +:+ "]"
  end.

(** [str(v)], which is what [{v}] in an f-string formats. *)
Definition py_str (v : Any) : string :=
  match v with
  | VStr s => s
  | _ => py_repr v
  end.

(** [json.dumps(v)] with its defaults ([ensure_ascii=True]). *)
Definition json_char (c : ascii) : string :=
  if Ascii.eqb c dquote || Ascii.eqb c backslash then String backslash (str1 c)
  else if Ascii.eqb c (ascii_of_nat 8) then String backslash "b"
  else if Ascii.eqb c (ascii_of_nat 12) then String backslash "f"
  else if Ascii.eqb c (ascii_of_nat 10) then String backslash "n"
  else if Ascii.eqb c (ascii_of_nat 13) then String backslash "r"
  else if Ascii.eqb c (ascii_of_nat 9) then String backslash "t"
  else if ((32 <=? N_of_ascii c) && (N_of_ascii c <? 127))%N then str1 c
  else String backslash ("u00" +:+ hex2 c).

Definition json_str (s : string) : string :=
  String dquote (String.concat EmptyString
                   (map json_char (list_ascii_of_string s)) +:+ str1 dquote).

Fixpoint json_dumps (v : Any) : string :=
  match v with
  | VNone => "null"
  | VBool true => "true"
  | VBool false => "false"
  | VInt n => pretty n
  | VStr s => json_str s
  | VList items => "[" +:+ String.concat ", " (map json_dumps items) +:+ "]"
  end.

End Py.

(** ** The entity store and the three functions of the example *)

Module Hierarchy.
Import Py.

Record EnforcedRule : Type := {
  rule_id : string;
  path : string;
  value : Any;
  (* 'locked' | 'min' | 'max' | 'subset' | 'additive' | 'narrowable' | 'overridable' *)
  enforcement : string;
  reason : string;
}.

(** The [policies] dict of the data class is read by none of the three
    functions and is not carried here. *)
Record EntityProfile : Type := {
  id : string;
  profile_type : string;
  display_name : string;
  entity_type : string;
  description : option string;
  parent : option string;
  children : list string;
  inherit_policies : bool;
  depth : Z;
  enforced_rules : list EnforcedRule;
  direct_members : list string;
  admins : list string;
}.

Record EffectivePolicy : Type := {
  eff_value : Any;
  source : string;
  eff_enforcement : string;
  locked : bool;
}.

(** The dict [validate_policy_change] returns: [{"allowed": ...}] with
    or without a ["reason"] key. *)
Record Verdict : Type := {
  allowed : bool;
  verdict_reason : option string;
}.

Definition allow : Verdict := {| allowed := true; verdict_reason := None |}.
Definition deny (why : string) : Verdict :=
  {| allowed := false; verdict_reason := Some why |}.

(** What one pass through a loop body does: fall through to the next
    iteration, [return], or raise. *)
Inductive flow : Type :=
| Next
| Return (v : Verdict)
| Raise (e : exn).

(** What a call does once it has finished. *)
Inductive outcome (A : Type) : Type :=
| Returned (a : A)
| Raised (e : exn).
Arguments Returned {A} a.
Arguments Raised {A} e.

(** Truthiness of [current.parent]: [None] and the empty string are
    falsy. *)
Definition truthy_parent (current : EntityProfile) : option string :=
  match parent current with
  | Some p => if decide (p = EmptyString) then None else Some p
  | None => None
  end.

Section Store.

(** The module-level dict [entities]. *)
Variable entities : gmap string EntityProfile.

(** The [while] loop of [get_ancestry].  Each test of the loop condition
    spends one unit of [fuel]; [None] means the fuel ran out with the loop
    still running. *)
Fixpoint ancestry_loop (fuel : nat) (current : option EntityProfile)
    (result : list string) : option (list string) :=
  match fuel with
  | O => None
  | S fuel' =>
      match current with
      | Some c =>
          match truthy_parent c with
          | Some p => ancestry_loop fuel' (entities !! p) (result ++ [p])
          | None => Some result
          end
      | None => Some result
      end
  end.

Definition get_ancestry (fuel : nat) (entity_id : string)
  : option (list string) :=
  ancestry_loop fuel (entities !! entity_id) [entity_id].

(** [result[rule.path] = EffectivePolicy(...)]. *)
Definition effective_of (entity : EntityProfile) (rule : EnforcedRule)
  : EffectivePolicy :=
  {| eff_value := value rule;
     source := display_name entity;
     eff_enforcement := enforcement rule;
     locked := bool_decide (enforcement rule = "locked") |}.

Definition apply_rules (entity : EntityProfile)
    (result : gmap string EffectivePolicy) : gmap string EffectivePolicy :=
  fold_left (fun res rule => <[path rule := effective_of entity rule]> res)
            (enforced_rules entity) result.

Definition apply_ancestor (result : gmap string EffectivePolicy)
    (ancestor_id : string) : gmap string EffectivePolicy :=
  match entities !! ancestor_id with
  | None => result
  | Some entity =>
      match enforced_rules entity with
      | [] => result
      | _ :: _ => apply_rules entity result
      end
  end.

Definition compute_effective_policies (fuel : nat) (entity_id : string)
  : option (gmap string EffectivePolicy) :=
  match get_ancestry fuel entity_id with
  | None => None
  | Some ancestry =>
      (* Process from root to leaf *)
      Some (fold_left apply_ancestor (rev ancestry) ∅)
  end.

(** The three f-strings. *)
Definition locked_message (path_ : string) (entity : EntityProfile)
    (rule : EnforcedRule) : string :=
  str1 dquote +:+ path_ +:+ str1 dquote +:+ " is locked by "
    +:+ display_name entity +:+ ": " +:+ reason rule.

Definition bound_message (kind path_ : string) (entity : EntityProfile)
    (rule : EnforcedRule) : string :=
  str1 dquote +:+ path_ +:+ str1 dquote +:+ " " +:+ kind +:+ " is "
    +:+ py_str (value rule) +:+ " (set by " +:+ display_name entity +:+ ")".

Definition subset_message (path_ : string) (rule : EnforcedRule)
    (joined : string) : string :=
  str1 dquote +:+ path_ +:+ str1 dquote +:+ " must be subset of "
    +:+ json_dumps (value rule) +:+ ". Invalid: " +:+ joined.

(** The body of the inner [for rule in entity.enforced_rules] loop. *)
Definition check_rule (entity : EntityProfile) (path_ : string)
    (new_value : Any) (rule : EnforcedRule) : flow :=
  if decide (path rule = path_) then
    if decide (enforcement rule = "locked") then
      if negb (py_eq new_value (value rule))
      then Return (deny (locked_message path_ entity rule))
      else Next
    else if decide (enforcement rule = "min") then
      match as_number new_value with
      | Some n =>
          match as_number (value rule) with
          | Some bound =>
              if (n <? bound)%Z
              then Return (deny (bound_message "minimum" path_ entity rule))
              else Next
          | None => Raise TypeError
          end
      | None => Next
      end
    else if decide (enforcement rule = "max") then
      match as_number new_value with
      | Some n =>
          match as_number (value rule) with
          | Some bound =>
              if (n >? bound)%Z
              then Return (deny (bound_message "maximum" path_ entity rule))
              else Next
          | None => Raise TypeError
          end
      | None => Next
      end
    else if decide (enforcement rule = "subset") then
      match as_list new_value, as_list (value rule) with
      | Some new_items, Some rule_items =>
          match py_set rule_items with
          | inl e => Raise e
          | inr parent_set =>
              match not_in_set parent_set new_items with
              | inl e => Raise e
              | inr [] => Next
              | inr ((_ :: _) as invalid_items) =>
                  match join ", " invalid_items with
                  | inl e => Raise e
                  | inr joined =>
                      Return (deny (subset_message path_ rule joined))
                  end
              end
          end
      | _, _ => Next
      end
    else Next
  else Next.

Fixpoint check_rules (entity : EntityProfile) (path_ : string)
    (new_value : Any) (rules : list EnforcedRule) : flow :=
  match rules with
  | [] => Next
  | rule :: rest =>
      match check_rule entity path_ new_value rule with
      | Next => check_rules entity path_ new_value rest
      | stop => stop
      end
  end.

(** The body of the outer [for ancestor_id in ancestry] loop. *)
Definition check_ancestor (entity_id path_ : string) (new_value : Any)
    (ancestor_id : string) : flow :=
  if decide (ancestor_id = entity_id) then Next (* Skip self *)
  else
    match entities !! ancestor_id with
    | None => Next
    | Some entity =>
        match enforced_rules entity with
        | [] => Next
        | _ :: _ => check_rules entity path_ new_value (enforced_rules entity)
        end
    end.

Fixpoint check_ancestors (entity_id path_ : string) (new_value : Any)
    (ancestry : list string) : flow :=
  match ancestry with
  | [] => Next
  | ancestor_id :: rest =>
      match check_ancestor entity_id path_ new_value ancestor_id with
      | Next => check_ancestors entity_id path_ new_value rest
      | stop => stop
      end
  end.

Definition finish (f : flow) : outcome Verdict :=
  match f with
  | Next => Returned allow
  | Return v => Returned v
  | Raise e => Raised e
  end.

Definition validate_policy_change (fuel : nat) (entity_id path_ : string)
    (new_value : Any) : option (outcome Verdict) :=
  match get_ancestry fuel entity_id with
  | None => None
  | Some ancestry =>
      Some (finish (check_ancestors entity_id path_ new_value ancestry))
  end.

(** *** Vocabulary of the specification *)

(** The enforced rules [validate_policy_change] reads: for every strict
    ancestor (the entity itself excluded), in the order of the ancestry
    list, every enforced rule whose path is [path_], each with the entity
    that owns it. *)
Definition ancestor_rules (entity_id path_ : string)
    (ancestry : list string) : list (EntityProfile * EnforcedRule) :=
  flat_map
    (fun ancestor_id =>
       if decide (ancestor_id = entity_id) then []
       else match entities !! ancestor_id with
            | Some entity =>
                map (pair entity)
                    (filter (fun r => path r = path_) (enforced_rules entity))
            | None => []
            end)
    ancestry.

(** Checking a list of rules one after the other, up to the first that
    does not fall through. *)
Fixpoint check_each (path_ : string) (new_value : Any)
    (rules : list (EntityProfile * EnforcedRule)) : flow :=
  match rules with
  | [] => Next
  | (entity, rule) :: rest =>
      match check_rule entity path_ new_value rule with
      | Next => check_each path_ new_value rest
      | stop => stop
      end
  end.

Definition is_raise (f : flow) : bool :=
  match f with
  | Raise _ => true
  | _ => false
  end.

(** No rule the call reads raises when it is checked against
    [new_value]. *)
Definition checks_cleanly (entity_id path_ : string) (new_value : Any)
    (ancestry : list string) : bool :=
  forallb (fun er => negb (is_raise (check_rule er.1 path_ new_value er.2)))
          (ancestor_rules entity_id path_ ancestry).

(** The tree invariant of the data model on one entity: depths are not
    negative and a parent found in the store is strictly shallower. *)
Definition parent_is_shallower (entity : EntityProfile) : bool :=
  match truthy_parent entity with
  | Some p =>
      match entities !! p with
      | Some up => bool_decide (0 <= depth up < depth entity)%Z
      | None => true
      end
  | None => true
  end.

Definition is_tree : bool :=
  forallb (fun kv => parent_is_shallower kv.2) (map_to_list entities).

(** The rule in force at [path_] along a chain listed leaf first: the
    last rule at that path of the first chain member that has one. *)
Fixpoint nearest_rule (path_ : string) (chain : list string)
  : option (EntityProfile * EnforcedRule) :=
  match chain with
  | [] => None
  | member :: rest =>
      match entities !! member with
      | Some entity =>
          match last (filter (fun r => path r = path_)
                             (enforced_rules entity)) with
          | Some rule => Some (entity, rule)
          | None => nearest_rule path_ rest
          end
      | None => nearest_rule path_ rest
      end
  end.

End Store.

(** The four enforcement kinds as the specification words them: when a
    rule is violated by a new value. *)
Definition violates (new_value : Any) (rule : EnforcedRule) : bool :=
  if decide (enforcement rule = "locked") then
    (* new_value must equal rule.value exactly *)
    negb (py_eq new_value (value rule))
  else if decide (enforcement rule = "min") then
    (* new_value (numeric) must be >= rule.value *)
    match as_number new_value, as_number (value rule) with
    | Some n, Some bound => (n <? bound)%Z
    | _, _ => false
    end
  else if decide (enforcement rule = "max") then
    (* new_value (numeric) must be <= rule.value *)
    match as_number new_value, as_number (value rule) with
    | Some n, Some bound => (bound <? n)%Z
    | _, _ => false
    end
  else if decide (enforcement rule = "subset") then
    (* new_value (list) must be a subset of rule.value (list) *)
    match as_list new_value, as_list (value rule) with
    | Some new_items, Some rule_items =>
        negb (forallb (fun v => existsb (py_eq v) rule_items) new_items)
    | _, _ => false
    end
  else false.

(** The enforcement kinds that have no branch in the validation. *)
Definition unvalidated_kind (rule : EnforcedRule) : bool :=
  bool_decide (enforcement rule ∈ ["additive"; "narrowable"; "overridable"]).

(** A new value of the wrong type for the rule: not a number against
    [min] or [max], or not a list (or a rule value that is not a list)
    against [subset]. *)
Definition type_mismatch (new_value : Any) (rule : EnforcedRule) : bool :=
  bool_decide (enforcement rule ∈ ["min"; "max"])
    && bool_decide (as_number new_value = None)
  || bool_decide (enforcement rule = "subset")
    && (bool_decide (as_list new_value = None)
        || bool_decide (as_list (value rule) = None)).

(** An entity with the enforced rules at other paths than [path_]
    removed. *)
Definition only_rules_at (path_ : string) (entity : EntityProfile)
  : EntityProfile :=
  {| id := id entity;
     profile_type := profile_type entity;
     display_name := display_name entity;
     entity_type := entity_type entity;
     description := description entity;
     parent := parent entity;
     children := children entity;
     inherit_policies := inherit_policies entity;
     depth := depth entity;
     enforced_rules := filter (fun r => path r = path_) (enforced_rules entity);
     direct_members := direct_members entity;
     admins := admins entity |}.

(** An entity with the enforced rules selected by [drop] removed. *)
Definition without_rules (drop : EnforcedRule → bool)
    (entity : EntityProfile) : EntityProfile :=
  {| id := id entity;
     profile_type := profile_type entity;
     display_name := display_name entity;
     entity_type := entity_type entity;
     description := description entity;
     parent := parent entity;
     children := children entity;
     inherit_policies := inherit_policies entity;
     depth := depth entity;
     enforced_rules :=
       List.filter (fun r => negb (drop r)) (enforced_rules entity);
     direct_members := direct_members entity;
     admins := admins entity |}.

(** The last rule of a list that sits at [path_]. *)
Definition last_rule_at (path_ : string) (rules : list EnforcedRule)
  : option EnforcedRule :=
  last (filter (fun r => path r = path_) rules).

(** ** The entities built by [main] *)

Module Demo.

Definition rule (i p : string) (v : Any) (enf why : string) : EnforcedRule :=
  {| rule_id := i; path := p; value := v; enforcement := enf; reason := why |}.

Definition acme_rules : list EnforcedRule :=
  [ rule "gdpr-compliance" "policies.compliance.gdpr" (VBool true) "locked"
      "Legal requirement for EU operations";
    rule "data-residency" "policies.data.residency" (VList [VStr "EU"])
      "locked" "Corporate data sovereignty policy";
    rule "max-retention" "policies.data.retention.maxMonths" (VInt 36) "max"
      "GDPR data minimization";
    rule "min-encryption" "policies.security.encryption.minBits" (VInt 256)
      "min" "Security baseline";
    rule "allowed-ai-models" "policies.ai.allowedModels"
      (VList [VStr "gpt-4"; VStr "claude-3"; VStr "gemini-pro"]) "subset"
      "Only security-vetted models";
    rule "ai-blocklist" "policies.ai.blockedModels"
      (VList [VStr "legacy-gpt-*"]) "additive" "Security team blocklist" ].

Definition corp_id : string := "did:a2p:entity:local:local:acme-corp".
Definition engineering_id : string :=
  "did:a2p:entity:local:local:acme-engineering".
Definition ml_team_id : string := "did:a2p:entity:local:local:acme-ml-team".

(** [acme_corp] as [main] builds it, under the id given there. *)
Definition acme_corp_as (the_id : string) : EntityProfile :=
  {| id := the_id;
     profile_type := "entity";
     display_name := "ACME Corporation";
     entity_type := "organization";
     description := Some "Global technology company";
     parent := None;
     children := [engineering_id; "did:a2p:entity:local:local:acme-sales"];
     inherit_policies := false;
     depth := 0;
     enforced_rules := acme_rules;
     direct_members := [];
     admins := ["did:a2p:user:local:local:ceo"] |}.

Definition engineering : EntityProfile :=
  {| id := engineering_id;
     profile_type := "entity";
     display_name := "Engineering";
     entity_type := "department";
     description := Some "Product and platform engineering";
     parent := Some corp_id;
     children := [ml_team_id; "did:a2p:entity:local:local:acme-platform-team"];
     inherit_policies := true;
     depth := 1;
     enforced_rules :=
       [ rule "code-review" "policies.development.codeReview" (VBool true)
           "locked" "Engineering quality standard";
         rule "ci-required" "policies.development.ciRequired" (VBool true)
           "locked" "Continuous integration mandatory" ];
     direct_members := [];
     admins := ["did:a2p:user:local:local:vp-engineering"] |}.

Definition ml_team : EntityProfile :=
  {| id := ml_team_id;
     profile_type := "entity";
     display_name := "ML Team";
     entity_type := "team";
     description := Some "Machine learning and AI research";
     parent := Some engineering_id;
     children := [];
     inherit_policies := true;
     depth := 2;
     enforced_rules :=
       [ rule "experiment-tracking" "policies.ml.experimentTracking"
           (VBool true) "locked" "ML reproducibility requirement" ];
     direct_members :=
       ["did:a2p:user:local:local:alice"; "did:a2p:user:local:local:bob"];
     admins := ["did:a2p:user:local:local:alice"] |}.

(** The store with the organization filed under the id its department
    names as parent. *)
Definition acme_corp : EntityProfile := acme_corp_as corp_id.

Definition acme : gmap string EntityProfile :=
  <[ml_team_id := ml_team]>
    (<[engineering_id := engineering]> (<[corp_id := acme_corp]> ∅)).

(** The store exactly as [main] fills it: the organization is filed under
    an id with one more [local:] segment than the [parent] of its
    department has. *)
Definition main_corp_id : string :=
  "did:a2p:entity:local:local:local:acme-corp".

Definition main_entities : gmap string EntityProfile :=
  <[ml_team_id := ml_team]>
    (<[engineering_id := engineering]>
       (<[main_corp_id := acme_corp_as main_corp_id]> ∅)).

End Demo.

(** ** Variations of the store of [main] *)

Module Cases.
Import Demo.

Definition with_rules (entity : EntityProfile) (rules : list EnforcedRule)
  : EntityProfile :=
  {| id := id entity;
     profile_type := profile_type entity;
     display_name := display_name entity;
     entity_type := entity_type entity;
     description := description entity;
     parent := parent entity;
     children := children entity;
     inherit_policies := inherit_policies entity;
     depth := depth entity;
     enforced_rules := rules;
     direct_members := direct_members entity;
     admins := admins entity |}.

Definition with_parent (entity : EntityProfile) (p : option string)
  : EntityProfile :=
  {| id := id entity;
     profile_type := profile_type entity;
     display_name := display_name entity;
     entity_type := entity_type entity;
     description := description entity;
     parent := p;
     children := children entity;
     inherit_policies := inherit_policies entity;
     depth := depth entity;
     enforced_rules := enforced_rules entity;
     direct_members := direct_members entity;
     admins := admins entity |}.

Definition gdpr_path : string := "policies.compliance.gdpr".
Definition models_path : string := "policies.ai.allowedModels".
Definition blocked_path : string := "policies.ai.blockedModels".
Definition min_bits_path : string := "policies.security.encryption.minBits".
Definition max_months_path : string := "policies.data.retention.maxMonths".

Definition corp_gdpr_rule : EnforcedRule :=
  rule "gdpr-compliance" gdpr_path (VBool true) "locked"
       "Legal requirement for EU operations".





(** The department narrows the organization's list of models. *)
Definition dept_models_rule : EnforcedRule :=
  rule "dept-models" models_path (VList [VStr "claude-3"]) "subset"
       "Department standard model".

Definition engineering_narrow : EntityProfile :=
  with_rules engineering (enforced_rules engineering ++ [dept_models_rule]).

Definition acme_narrowed : gmap string EntityProfile :=
  <[engineering_id := engineering_narrow]> acme.

(** The organization locks the key size; the department holds bounds
    whose values are text. *)
Definition corp_bits_lock : EnforcedRule :=
  rule "encryption-lock" min_bits_path (VInt 256) "locked"
       "Security baseline".

Definition dept_bits_rule : EnforcedRule :=
  rule "dept-encryption" min_bits_path (VStr "128") "min"
       "Department floor".

Definition dept_months_rule : EnforcedRule :=
  rule "dept-retention" max_months_path (VStr "24") "max"
       "Department retention".

Definition corp_locking : EntityProfile :=
  with_rules acme_corp [corp_gdpr_rule; corp_bits_lock].

Definition engineering_text_bounds : EntityProfile :=
  with_rules engineering
    (enforced_rules engineering ++ [dept_bits_rule; dept_months_rule]).

Definition acme_text_bounds : gmap string EntityProfile :=
  <[engineering_id := engineering_text_bounds]>
    (<[corp_id := corp_locking]> acme).

(** A [subset] rule over numbers. *)
Definition ports_path : string := "policies.network.allowedPorts".

Definition corp_ports_rule : EnforcedRule :=
  rule "allowed-ports" ports_path (VList [VInt 80; VInt 443]) "subset"
       "Firewall policy".

Definition acme_ports : gmap string EntityProfile :=
  <[corp_id := with_rules acme_corp [corp_ports_rule]]> acme.

(** The organization names its own department as parent. *)
Definition acme_corp_looped : EntityProfile :=
  with_parent acme_corp (Some engineering_id).

Definition acme_looped : gmap string EntityProfile :=
  <[corp_id := acme_corp_looped]> acme.

(** An id no entity is filed under. *)
Definition ghost_id : string := "did:a2p:entity:local:local:acme-ghost".

(** The ancestry of the ML team, nearest ancestor first. *)
Definition acme_chain : list string := [ml_team_id; engineering_id; corp_id].

(** The sales department that the organization lists among its children,
    with a rule of its own. *)
Definition sales_id : string := "did:a2p:entity:local:local:acme-sales".

Definition sales : EntityProfile :=
  {| id := sales_id;
     profile_type := "entity";
     display_name := "Sales";
     entity_type := "department";
     description := None;
     parent := Some corp_id;
     children := [];
     inherit_policies := true;
     depth := 1;
     enforced_rules :=
       [ rule "sales-gdpr" gdpr_path (VBool false) "locked"
              "Sales exemption" ];
     direct_members := [];
     admins := [] |}.

Definition acme_with_sales : gmap string EntityProfile :=
  <[sales_id := sales]> acme.

(** The department locks the key size; the organization holds its
    minimum as text. *)
Definition dept_bits_lock : EnforcedRule :=
  rule "dept-encryption-lock" min_bits_path (VInt 256) "locked"
       "Department baseline".

Definition corp_bits_text_rule : EnforcedRule :=
  rule "min-encryption" min_bits_path (VStr "128") "min" "Security baseline".

Definition engineering_locking : EntityProfile :=
  with_rules engineering (enforced_rules engineering ++ [dept_bits_lock]).

Definition corp_text_minimum : EntityProfile :=
  with_rules acme_corp [corp_bits_text_rule].

Definition acme_lock_first : gmap string EntityProfile :=
  <[engineering_id := engineering_locking]>
    (<[corp_id := corp_text_minimum]> acme).

(** What the department sees as effective, and the lock it shows. *)
Definition engineering_effective : gmap string EffectivePolicy :=
  default ∅ (compute_effective_policies acme 2 engineering_id).

Definition gdpr_lock_shown : EffectivePolicy :=
  effective_of acme_corp corp_gdpr_rule.

End Cases.

(** ** Vocabulary for the walk and for families of rules *)

(** [rest] continues the parent chain of [member]: each id is the truthy
    parent of the entity stored under the id before it, and the chain
    stops at an id that is not in the store or whose entity has no
    truthy parent. *)
Fixpoint linked (entities : gmap string EntityProfile) (member : string)
    (rest : list string) : Prop :=
  match rest with
  | [] =>
      match entities !! member with
      | Some entity => truthy_parent entity = None
      | None => True
      end
  | next :: rest' =>
      (∃ entity, entities !! member = Some entity
                 ∧ truthy_parent entity = Some next)
      ∧ linked entities next rest'
  end.

(** One turn of the [while] loop of [get_ancestry]: [up] is the truthy
    parent of the entity stored under [child]. *)
Definition parent_step (entities : gmap string EntityProfile)
    (child up : string) : Prop :=
  ∃ entity, entities !! child = Some entity ∧ truthy_parent entity = Some up.

(** [A] is a strict ancestor of [D]: the parent pointers lead from [D]
    to [A] in one step or more.  [B] is nearer to [D] than [A] when [B]
    is a strict ancestor of [D] and [A] a strict ancestor of [B]. *)
Definition strict_ancestor (entities : gmap string EntityProfile)
    (D A : string) : Prop :=
  tc (parent_step entities) D A.

(** [a] is on the chain of [D]: [D] itself or a strict ancestor. *)
Definition chain_member (entities : gmap string EntityProfile)
    (D a : string) : Prop :=
  rtc (parent_step entities) D a.

(** The parent pointers followed from [entity_id] come back to an id
    they have passed. *)
Definition reaches_a_cycle (entities : gmap string EntityProfile)
    (entity_id : string) : Prop :=
  ∃ a, chain_member entities entity_id a ∧ strict_ancestor entities a a.

(** A 'min' or 'max' rule whose value is a number. *)
Definition is_bound_rule (rule : EnforcedRule) : bool :=
  bool_decide (enforcement rule ∈ ["min"; "max"])
  && bool_decide (is_Some (as_number (value rule))).

(** The names held by a value that is a list of strings. *)
Definition as_names (v : Any) : option (list string) :=
  match as_list v with
  | Some items =>
      match strs items with
      | inr names => Some names
      | inl _ => None
      end
  | None => None
  end.

(** A 'subset' rule whose value is a list of strings. *)
Definition is_names_rule (rule : EnforcedRule) : bool :=
  bool_decide (enforcement rule = "subset")
  && bool_decide (is_Some (as_names (value rule))).

(** ** Properties *)

(** *** One rule *)

Lemma check_rule_other_path entity path_ new_value rule :
  path rule ≠ path_ → check_rule entity path_ new_value rule = Next.
Proof. intros Hne. unfold check_rule. by rewrite decide_False. Qed.

(** The comprehension keeps, in order, the items the set lacks. *)
Lemma not_in_set_filter parent_set new_items invalid :
  not_in_set parent_set new_items = inr invalid →
  invalid = List.filter (fun v => negb (existsb (py_eq v) parent_set)) new_items.
Proof.
  revert invalid. induction new_items as [|v rest IH]; intros invalid; simpl.
  - by intros [= <-].
  - unfold set_contains. destruct (hashable v); [|done].
    destruct (not_in_set parent_set rest) as [e|inv]; [done|].
    intros [= <-]. rewrite (IH inv eq_refl).
    by destruct (existsb (py_eq v) parent_set).
Qed.

Lemma filter_nil_forallb {A} (f : A → bool) (l : list A) :
  List.filter (fun v => negb (f v)) l = [] ↔ forallb f l = true.
Proof.
  induction l as [|x l IH]; simpl; [done|].
  destruct (f x); simpl; [done|]. split; discriminate.
Qed.

(** A rule that returns, returns a denial, sits at the path and is
    violated in the sense of the specification. *)
Lemma check_rule_return entity path_ new_value rule v :
  check_rule entity path_ new_value rule = Return v →
  path rule = path_ ∧ violates new_value rule = true
  ∧ ∃ why, v = deny why.
Proof.
  unfold check_rule, violates.
  destruct (decide (path rule = path_)) as [Hp|]; [|done].
  destruct (decide (enforcement rule = "locked")) as [Hk1|Hk1].
  { destruct (py_eq new_value (value rule)); simpl; [done|].
    intros [= <-]. eauto. }
  destruct (decide (enforcement rule = "min")) as [Hk2|Hk2].
  { destruct (as_number new_value) as [n|]; [|done].
    destruct (as_number (value rule)) as [bound|]; [|done].
    destruct (n <? bound)%Z; [|done]. intros [= <-]. eauto. }
  destruct (decide (enforcement rule = "max")) as [Hk3|Hk3].
  { destruct (as_number new_value) as [n|]; [|done].
    destruct (as_number (value rule)) as [bound|]; [|done].
    rewrite Z.gtb_ltb. destruct (bound <? n)%Z; [|done].
    intros [= <-]. eauto. }
  destruct (decide (enforcement rule = "subset")) as [Hk4|Hk4]; [|done].
  destruct (as_list new_value) as [new_items|]; [|done].
  destruct (as_list (value rule)) as [rule_items|]; [|done].
  unfold py_set. destruct (forallb hashable rule_items); [|done].
  destruct (not_in_set rule_items new_items) as [e|invalid] eqn:Hinv; [done|].
  destruct invalid as [|bad invalid]; [done|].
  destruct (join ", " (bad :: invalid)) as [e|joined]; [done|].
  intros [= <-]. split; [done|]. split; [|eauto].
  apply not_in_set_filter in Hinv.
  destruct (forallb _ new_items) eqn:Hall; [|done].
  apply filter_nil_forallb in Hall. congruence.
Qed.

(** A violated rule at the path never falls through. *)
Lemma check_rule_violated entity path_ new_value rule :
  path rule = path_ → violates new_value rule = true →
  check_rule entity path_ new_value rule ≠ Next.
Proof.
  unfold check_rule, violates. intros Hp.
  destruct (decide (path rule = path_)) as [_|]; [|done].
  destruct (decide (enforcement rule = "locked")) as [Hk5|Hk5].
  { by intros ->. }
  destruct (decide (enforcement rule = "min")) as [Hk6|Hk6].
  { destruct (as_number new_value) as [n|]; [|done].
    destruct (as_number (value rule)) as [bound|]; [|done].
    by intros ->. }
  destruct (decide (enforcement rule = "max")) as [Hk7|Hk7].
  { destruct (as_number new_value) as [n|]; [|done].
    destruct (as_number (value rule)) as [bound|]; [|done].
    rewrite Z.gtb_ltb. by intros ->. }
  destruct (decide (enforcement rule = "subset")) as [Hk8|Hk8]; [|done].
  destruct (as_list new_value) as [new_items|]; [|done].
  destruct (as_list (value rule)) as [rule_items|]; [|done].
  unfold py_set. destruct (forallb hashable rule_items); [|done].
  destruct (not_in_set rule_items new_items) as [e|invalid] eqn:Hinv; [done|].
  apply not_in_set_filter in Hinv.
  destruct invalid as [|bad invalid].
  - symmetry in Hinv. apply filter_nil_forallb in Hinv. by rewrite Hinv.
  - by destruct (join ", " (bad :: invalid)).
Qed.

(** *** A list of rules *)

Lemma check_each_app path_ new_value l1 l2 :
  check_each path_ new_value (l1 ++ l2) =
  match check_each path_ new_value l1 with
  | Next => check_each path_ new_value l2
  | stop => stop
  end.
Proof.
  induction l1 as [|[e r] l1 IH]; simpl; [done|].
  by destruct (check_rule e path_ new_value r).
Qed.

Lemma check_each_next path_ new_value l :
  check_each path_ new_value l = Next ↔
  ∀ e r, (e, r) ∈ l → check_rule e path_ new_value r = Next.
Proof.
  induction l as [|[e r] l IH]; simpl.
  - split; [|done]. intros _ e r H. by apply elem_of_nil in H.
  - split.
    + intros H e' r' [[= -> ->]|Hin]%elem_of_cons.
      * by destruct (check_rule e path_ new_value r).
      * destruct (check_rule e path_ new_value r); try done.
        by apply IH.
    + intros H. rewrite (H e r) by left. apply IH.
      intros e' r' Hin. apply H. by right.
Qed.

Lemma check_each_return path_ new_value l v :
  check_each path_ new_value l = Return v →
  ∃ e r, (e, r) ∈ l ∧ check_rule e path_ new_value r = Return v.
Proof.
  induction l as [|[e r] l IH]; simpl; [done|].
  destruct (check_rule e path_ new_value r) eqn:Hc.
  - intros (e' & r' & Hin & H)%IH. exists e', r'. split; [by right|done].
  - intros [= <-]. exists e, r. split; [left|done].
  - done.
Qed.

Lemma check_each_raise path_ new_value l x :
  check_each path_ new_value l = Raise x →
  ∃ e r, (e, r) ∈ l ∧ check_rule e path_ new_value r = Raise x.
Proof.
  induction l as [|[e r] l IH]; simpl; [done|].
  destruct (check_rule e path_ new_value r) eqn:Hc.
  - intros (e' & r' & Hin & H)%IH. exists e', r'. split; [by right|done].
  - done.
  - intros [= <-]. exists e, r. split; [left|done].
Qed.

Lemma check_rules_each entity path_ new_value rules :
  check_rules entity path_ new_value rules =
  check_each path_ new_value
    (map (pair entity) (filter (fun r => path r = path_) rules)).
Proof.
  induction rules as [|r rules IH]; simpl; [done|].
  destruct (decide (path r = path_)) as [Hp|Hp].
  - rewrite filter_cons_True by done. simpl. by rewrite IH.
  - rewrite filter_cons_False by done.
    by rewrite check_rule_other_path.
Qed.

Lemma check_rule_display_name e1 e2 path_ new_value rule :
  display_name e1 = display_name e2 →
  check_rule e1 path_ new_value rule = check_rule e2 path_ new_value rule.
Proof.
  intros Hn. unfold check_rule, locked_message, bound_message.
  by rewrite Hn.
Qed.

Lemma check_rule_unvalidated entity path_ new_value rule :
  unvalidated_kind rule = true →
  check_rule entity path_ new_value rule = Next.
Proof.
  unfold unvalidated_kind. intros Hk%bool_decide_eq_true.
  unfold check_rule. destruct (decide (path rule = path_)); [|done].
  rewrite !elem_of_cons, elem_of_nil in Hk.
  destruct Hk as [Hk|[Hk|[Hk|[]]]]; rewrite Hk; reflexivity.
Qed.

Lemma check_rule_type_mismatch entity path_ new_value rule :
  type_mismatch new_value rule = true →
  check_rule entity path_ new_value rule = Next.
Proof.
  unfold type_mismatch, check_rule. intros H.
  destruct (decide (path rule = path_)); [|done].
  apply orb_true_iff in H as [[Hk Hn]%andb_true_iff|[Hk Hl]%andb_true_iff].
  - apply bool_decide_eq_true in Hk, Hn. rewrite Hn.
    rewrite !elem_of_cons, elem_of_nil in Hk.
    destruct Hk as [Hk|[Hk|[]]]; rewrite Hk; reflexivity.
  - apply bool_decide_eq_true in Hk.
    rewrite decide_False by (rewrite Hk; done).
    rewrite decide_False by (rewrite Hk; done).
    rewrite decide_False by (rewrite Hk; done).
    rewrite decide_True by done.
    apply orb_true_iff in Hl as [Hl|Hl]; apply bool_decide_eq_true in Hl;
      rewrite Hl; [done|by destruct (as_list new_value)].
Qed.

(** *** The ancestry walk and the two loops over it *)

Section Properties.

Context (entities : gmap string EntityProfile).

Lemma ancestry_loop_mono fuel fuel' current result ancestry :
  ancestry_loop entities fuel current result = Some ancestry →
  fuel ≤ fuel' →
  ancestry_loop entities fuel' current result = Some ancestry.
Proof.
  revert fuel' current result.
  induction fuel as [|fuel IH]; intros fuel' current result; [done|].
  destruct fuel' as [|fuel']; [lia|]. simpl.
  destruct current as [c|]; [|done].
  destruct (truthy_parent c); [|done].
  intros H ?. apply IH; [done|lia].
Qed.

Lemma get_ancestry_mono fuel fuel' entity_id ancestry :
  get_ancestry entities fuel entity_id = Some ancestry →
  fuel ≤ fuel' →
  get_ancestry entities fuel' entity_id = Some ancestry.
Proof. apply ancestry_loop_mono. Qed.

(** The walk only appends. *)
Lemma ancestry_loop_prefix fuel current result ancestry :
  ancestry_loop entities fuel current result = Some ancestry →
  ∃ more, ancestry = result ++ more.
Proof.
  revert current result.
  induction fuel as [|fuel IH]; intros current result; [done|]. simpl.
  destruct current as [c|]; [|intros [= <-]; exists []; by rewrite app_nil_r].
  destruct (truthy_parent c) as [p|];
    [|intros [= <-]; exists []; by rewrite app_nil_r].
  intros (more & ->)%IH. exists (p :: more). by rewrite <- app_assoc.
Qed.

Lemma get_ancestry_head fuel entity_id ancestry :
  get_ancestry entities fuel entity_id = Some ancestry →
  ∃ more, ancestry = entity_id :: more.
Proof. intros (more & ->)%ancestry_loop_prefix. by exists more. Qed.

Lemma get_ancestry_unknown fuel entity_id :
  entities !! entity_id = None →
  get_ancestry entities (S fuel) entity_id = Some [entity_id].
Proof. intros H. unfold get_ancestry. by rewrite H. Qed.

Lemma check_ancestor_each entity_id path_ new_value ancestor_id :
  check_ancestor entities entity_id path_ new_value ancestor_id =
  check_each path_ new_value
    (ancestor_rules entities entity_id path_ [ancestor_id]).
Proof.
  unfold check_ancestor, ancestor_rules. simpl. rewrite app_nil_r.
  destruct (decide (ancestor_id = entity_id)); [done|].
  destruct (entities !! ancestor_id) as [entity|]; [|done].
  rewrite <- check_rules_each.
  by destruct (enforced_rules entity).
Qed.

Lemma ancestor_rules_cons entity_id path_ a ancestry :
  ancestor_rules entities entity_id path_ (a :: ancestry) =
  ancestor_rules entities entity_id path_ [a]
    ++ ancestor_rules entities entity_id path_ ancestry.
Proof. unfold ancestor_rules. simpl. by rewrite app_nil_r. Qed.


Lemma check_ancestors_each entity_id path_ new_value ancestry :
  check_ancestors entities entity_id path_ new_value ancestry =
  check_each path_ new_value (ancestor_rules entities entity_id path_ ancestry).
Proof.
  induction ancestry as [|a ancestry IH]; [done|].
  rewrite ancestor_rules_cons, check_each_app. simpl.
  by rewrite check_ancestor_each, IH.
Qed.

Lemma elem_of_ancestor_rules entity_id path_ ancestry e r :
  (e, r) ∈ ancestor_rules entities entity_id path_ ancestry ↔
  ∃ a, a ∈ ancestry ∧ a ≠ entity_id ∧ entities !! a = Some e
       ∧ r ∈ enforced_rules e ∧ path r = path_.
Proof.
  unfold ancestor_rules. rewrite list_elem_of_In, in_flat_map. split.
  - intros (a & Ha & Hin). exists a.
    destruct (decide (a = entity_id)); [done|].
    destruct (entities !! a) as [entity|]; [|done].
    apply in_map_iff in Hin as (r' & [= <- <-] & Hr).
    apply list_elem_of_In, list_elem_of_filter in Hr as [? ?].
    by rewrite list_elem_of_In.
  - intros (a & Ha & Hne & He & Hr & Hp). exists a.
    rewrite <- list_elem_of_In. split; [done|].
    rewrite decide_False, He by done.
    apply in_map, list_elem_of_In, list_elem_of_filter. done.
Qed.

Lemma validate_unfold fuel entity_id path_ new_value ancestry :
  get_ancestry entities fuel entity_id = Some ancestry →
  validate_policy_change entities fuel entity_id path_ new_value =
  Some (finish (check_each path_ new_value
                  (ancestor_rules entities entity_id path_ ancestry))).
Proof.
  intros H. unfold validate_policy_change.
  by rewrite H, check_ancestors_each.
Qed.

Lemma check_each_deny path_ new_value l v :
  check_each path_ new_value l = Return v → ∃ why, v = deny why.
Proof.
  intros (e & r & _ & Hc)%check_each_return.
  by apply check_rule_return in Hc as (_ & _ & ?).
Qed.

Lemma check_each_all_next path_ new_value l (quiet : EnforcedRule → bool) :
  (∀ e r, quiet r = true → check_rule e path_ new_value r = Next) →
  forallb (fun er => quiet er.2) l = true →
  check_each path_ new_value l = Next.
Proof.
  intros Hq Hall. apply check_each_next. intros e r Hin.
  apply Hq. rewrite forallb_forall in Hall.
  by apply (Hall (e, r)), list_elem_of_In.
Qed.

Lemma checks_cleanly_no_raise entity_id path_ new_value ancestry x :
  checks_cleanly entities entity_id path_ new_value ancestry = true →
  check_each path_ new_value
    (ancestor_rules entities entity_id path_ ancestry) ≠ Raise x.
Proof.
  unfold checks_cleanly. rewrite forallb_forall.
  intros Hall (e & r & Hin & Hc)%check_each_raise.
  apply list_elem_of_In, Hall in Hin. simpl in Hin. by rewrite Hc in Hin.
Qed.

(** With no raising check, the call returns a verdict, and the verdict
    is a denial exactly when some rule read is violated. *)
Lemma verdict_iff_violated entity_id path_ new_value ancestry :
  checks_cleanly entities entity_id path_ new_value ancestry = true →
  ∃ v,
    finish (check_each path_ new_value
              (ancestor_rules entities entity_id path_ ancestry)) = Returned v
    ∧ (allowed v = false ↔
       ∃ er, er ∈ ancestor_rules entities entity_id path_ ancestry
             ∧ violates new_value er.2 = true).
Proof.
  intros Hclean.
  destruct (check_each path_ new_value _) as [|v|x] eqn:Hc.
  - exists allow. split; [done|]. split; [done|].
    intros ([e r] & Hin & Hv). exfalso.
    apply elem_of_ancestor_rules in Hin as Hin'.
    destruct Hin' as (a & _ & _ & _ & _ & Hp).
    eapply check_rule_violated; [exact Hp|exact Hv|].
    rewrite check_each_next in Hc. by apply Hc.
  - exists v. split; [done|].
    apply check_each_return in Hc as (e & r & Hin & Hc).
    apply check_rule_return in Hc as (_ & Hv & why & ->).
    split; [|done]. intros _. by exists (e, r).
  - by apply checks_cleanly_no_raise in Hc.
Qed.

Lemma ancestor_rules_perm entity_id path_ l1 l2 er :
  l1 ≡ₚ l2 →
  er ∈ ancestor_rules entities entity_id path_ l1 →
  er ∈ ancestor_rules entities entity_id path_ l2.
Proof.
  intros Hperm. destruct er as [e r]. rewrite !elem_of_ancestor_rules.
  intros (a & Ha & ?). exists a. by rewrite <- Hperm.
Qed.

Lemma checks_cleanly_perm entity_id path_ new_value l1 l2 :
  l1 ≡ₚ l2 →
  checks_cleanly entities entity_id path_ new_value l2 = true →
  checks_cleanly entities entity_id path_ new_value l1 = true.
Proof.
  intros Hperm. unfold checks_cleanly. rewrite !forallb_forall.
  intros H er Hin. apply H.
  apply list_elem_of_In. apply list_elem_of_In in Hin.
  by eapply ancestor_rules_perm.
Qed.

End Properties.

(** *** Lists of strings against a [subset] rule *)

Lemma hashable_strs (names : list string) :
  forallb hashable (map VStr names) = true.
Proof. by induction names. Qed.

Lemma existsb_py_eq_str (s : string) (names : list string) :
  existsb (py_eq (VStr s)) (map VStr names) = bool_decide (s ∈ names).
Proof.
  induction names as [|x names IH]; [done|].
  cbn [map existsb]. rewrite IH.
  change (py_eq (VStr s) (VStr x)) with (bool_decide (s = x)).
  destruct (decide (s = x)) as [->|Hne].
  - rewrite bool_decide_eq_true_2 by done. simpl. symmetry.
    apply bool_decide_eq_true. left.
  - rewrite (bool_decide_eq_false_2 (s = x)) by done. simpl.
    apply bool_decide_ext. rewrite elem_of_cons. tauto.
Qed.

Lemma not_in_set_strs (allowed_names new_names : list string) :
  not_in_set (map VStr allowed_names) (map VStr new_names) =
  inr (map VStr (filter (fun s => s ∉ allowed_names) new_names)).
Proof.
  induction new_names as [|s new_names IH]; [done|].
  cbn [map not_in_set set_contains hashable].
  unfold set_contains. cbn [hashable]. rewrite IH, existsb_py_eq_str.
  destruct (decide (s ∈ allowed_names)).
  - rewrite bool_decide_eq_true_2, filter_cons_False by auto. done.
  - rewrite bool_decide_eq_false_2, filter_cons_True by done. done.
Qed.

Lemma join_strs (sep : string) (names : list string) :
  join sep (map VStr names) = inr (String.concat sep names).
Proof.
  unfold join. assert (strs (map VStr names) = inr names) as ->; [|done].
  induction names as [|s names IH]; [done|].
  cbn [map strs]. by rewrite IH.
Qed.

(** *** Stores that differ in the rules at other paths only *)

Lemma ancestry_loop_only_rules_at entities path_ fuel current result :
  ancestry_loop (only_rules_at path_ <$> entities) fuel
                (only_rules_at path_ <$> current) result =
  ancestry_loop entities fuel current result.
Proof.
  revert current result.
  induction fuel as [|fuel IH]; intros current result; [done|]. simpl.
  destruct current as [c|]; [|done]. simpl.
  change (truthy_parent (only_rules_at path_ c)) with (truthy_parent c).
  destruct (truthy_parent c) as [p|]; [|done].
  by rewrite lookup_fmap, IH.
Qed.

Lemma filter_path_idemp path_ (rules : list EnforcedRule) :
  filter (fun r => path r = path_) (filter (fun r => path r = path_) rules)
  = filter (fun r => path r = path_) rules.
Proof.
  induction rules as [|r rules IH]; [done|].
  destruct (decide (path r = path_)).
  - rewrite !filter_cons_True by done. by rewrite IH.
  - by rewrite !filter_cons_False by done.
Qed.

Lemma check_ancestor_only_rules_at entities entity_id path_ new_value a :
  check_ancestor (only_rules_at path_ <$> entities) entity_id path_
                 new_value a =
  check_ancestor entities entity_id path_ new_value a.
Proof.
  rewrite !check_ancestor_each. unfold ancestor_rules. simpl.
  rewrite !app_nil_r. destruct (decide (a = entity_id)); [done|].
  rewrite lookup_fmap. destruct (entities !! a) as [e|]; [|done]. simpl.
  rewrite filter_path_idemp.
  induction (filter (fun r => path r = path_) (enforced_rules e))
    as [|r rules IH]; [done|].
  simpl. rewrite IH.
  by rewrite (check_rule_display_name (only_rules_at path_ e) e).
Qed.

(** *** Stores that differ in rules that always fall through *)

Lemma ancestry_loop_without entities drop fuel current result :
  ancestry_loop (without_rules drop <$> entities) fuel
                (without_rules drop <$> current) result =
  ancestry_loop entities fuel current result.
Proof.
  revert current result.
  induction fuel as [|fuel IH]; intros current result; [done|]. simpl.
  destruct current as [c|]; [|done]. simpl.
  change (truthy_parent (without_rules drop c)) with (truthy_parent c).
  destruct (truthy_parent c) as [p|]; [|done].
  by rewrite lookup_fmap, IH.
Qed.

Lemma check_rules_without drop entity path_ new_value rules :
  (∀ e r, drop r = true → check_rule e path_ new_value r = Next) →
  check_rules (without_rules drop entity) path_ new_value
              (List.filter (fun r => negb (drop r)) rules) =
  check_rules entity path_ new_value rules.
Proof.
  intros Hquiet. induction rules as [|r rules IH]; [done|]. simpl.
  destruct (drop r) eqn:Hdrop; simpl.
  - by rewrite (Hquiet entity r Hdrop).
  - rewrite IH.
    by rewrite (check_rule_display_name (without_rules drop entity) entity).
Qed.

Lemma check_rules_or_empty entity path_ new_value rules :
  match rules with
  | [] => Next
  | _ :: _ => check_rules entity path_ new_value rules
  end = check_rules entity path_ new_value rules.
Proof. by destruct rules. Qed.

Lemma check_ancestor_without entities drop entity_id path_ new_value a :
  (∀ e r, drop r = true → check_rule e path_ new_value r = Next) →
  check_ancestor (without_rules drop <$> entities) entity_id path_
                 new_value a =
  check_ancestor entities entity_id path_ new_value a.
Proof.
  intros Hquiet. unfold check_ancestor.
  destruct (decide (a = entity_id)); [done|].
  rewrite lookup_fmap. destruct (entities !! a) as [e|]; [|done]. simpl.
  rewrite !check_rules_or_empty. by apply check_rules_without.
Qed.

(** Rules whose check always falls through can be removed from every
    entity without changing the outcome of any call. *)
Lemma validate_without_quiet_rules entities drop fuel D path_ new_value :
  (∀ e r, drop r = true → check_rule e path_ new_value r = Next) →
  validate_policy_change (without_rules drop <$> entities) fuel D path_
                         new_value =
  validate_policy_change entities fuel D path_ new_value.
Proof.
  intros Hquiet. unfold validate_policy_change, get_ancestry.
  rewrite lookup_fmap, ancestry_loop_without.
  destruct (ancestry_loop entities fuel (entities !! D) [D]) as [ancestry|];
    [|done].
  do 2 f_equal. induction ancestry as [|a ancestry IH]; [done|]. simpl.
  by rewrite check_ancestor_without, IH.
Qed.

(** *** Validation of a proposed change *)

Section Validation.

Context (entities : gmap string EntityProfile).

(** Whatever else is enforced at the path, a violated lock is never
    answered with [allowed = True]: the call returns a denial or, when a
    check raises first, raises. *)
Lemma locked_rule_never_allows fuel D path_ new_value ancestry A eA r :
  get_ancestry entities fuel D = Some ancestry →
  A ∈ ancestry → A ≠ D → entities !! A = Some eA →
  r ∈ enforced_rules eA → path r = path_ →
  enforcement r = "locked" →
  py_eq new_value (value r) = false →
  (∃ why,
     validate_policy_change entities fuel D path_ new_value =
     Some (Returned (deny why)))
  ∨ (∃ x,
       validate_policy_change entities fuel D path_ new_value =
       Some (Raised x)
       ∧ checks_cleanly entities D path_ new_value ancestry = false).
Proof.
  intros Hanc HA HAD HeA Hr Hp Hk Hneq.
  rewrite (validate_unfold _ _ _ _ _ _ Hanc).
  destruct (check_each path_ new_value _) as [|v|x] eqn:Hc.
  - exfalso. rewrite check_each_next in Hc.
    apply (check_rule_violated eA path_ new_value r Hp).
    + unfold violates. rewrite decide_True by done. by rewrite Hneq.
    + apply Hc, elem_of_ancestor_rules. by exists A.
  - left. apply check_each_deny in Hc as (why & ->). by exists why.
  - right. exists x. split; [done|].
    destruct (checks_cleanly entities D path_ new_value ancestry) eqn:Hclean;
      [|done].
    by apply (checks_cleanly_no_raise _ _ _ _ _ x) in Hclean.
Qed.


(** C7 (kinds without a validation branch).  Over a finished ancestry
    walk: if every enforced rule of a strict ancestor at the path has
    enforcement 'additive', 'narrowable' or 'overridable', the change is
    allowed, whatever the new value.  No branch of the validation reads
    these kinds, 'additive' included, and removing all rules of these
    kinds from the store changes the outcome of no call. *)
Theorem unvalidated_kinds_allow fuel D path_ new_value ancestry :
  get_ancestry entities fuel D = Some ancestry →
  (forallb (fun er => unvalidated_kind er.2)
           (ancestor_rules entities D path_ ancestry) = true →
   validate_policy_change entities fuel D path_ new_value =
   Some (Returned allow))
  ∧ validate_policy_change (without_rules unvalidated_kind <$> entities)
                           fuel D path_ new_value
    = validate_policy_change entities fuel D path_ new_value.
Proof.
  intros Hanc. split.
  - intros Hall. rewrite (validate_unfold _ _ _ _ _ _ Hanc).
    rewrite (check_each_all_next _ _ _ unvalidated_kind); [done| |done].
    intros. by apply check_rule_unvalidated.
  - apply validate_without_quiet_rules.
    intros. by apply check_rule_unvalidated.
Qed.

(** C9 (type-mismatched values bypass enforcement).  Over a finished
    ancestry walk: a 'min' or 'max' rule facing a new value that is not
    a number, and a 'subset' rule facing a new value that is not a list
    (or holding a value that is not a list), cannot deny.  If every
    enforced rule of a strict ancestor at the path is of that sort, the
    change is allowed; and removing all such rules from the store
    changes the outcome of no call. *)
Theorem type_mismatch_allows fuel D path_ new_value ancestry :
  get_ancestry entities fuel D = Some ancestry →
  (forallb (fun er => type_mismatch new_value er.2)
           (ancestor_rules entities D path_ ancestry) = true →
   validate_policy_change entities fuel D path_ new_value =
   Some (Returned allow))
  ∧ validate_policy_change
      (without_rules (type_mismatch new_value) <$> entities)
      fuel D path_ new_value
    = validate_policy_change entities fuel D path_ new_value.
Proof.
  intros Hanc. split.
  - intros Hall. rewrite (validate_unfold _ _ _ _ _ _ Hanc).
    rewrite (check_each_all_next _ _ _ (type_mismatch new_value));
      [done| |done].
    intros. by apply check_rule_type_mismatch.
  - apply validate_without_quiet_rules.
    intros. by apply check_rule_type_mismatch.
Qed.

(** C6 (unknown entity id).  For an id that is not in the store the two
    operations raise nothing: the ancestry is the id alone,
    [compute_effective_policies] returns the empty map and
    [validate_policy_change] returns [allowed = True]. *)
Theorem unknown_entity_is_not_an_error fuel entity_id path_ new_value :
  entities !! entity_id = None →
  get_ancestry entities (S fuel) entity_id = Some [entity_id]
  ∧ compute_effective_policies entities (S fuel) entity_id = Some ∅
  ∧ validate_policy_change entities (S fuel) entity_id path_ new_value
    = Some (Returned allow).
Proof.
  intros Hnone.
  pose proof (get_ancestry_unknown entities fuel entity_id Hnone) as Hanc.
  split; [done|]. split.
  - unfold compute_effective_policies. rewrite Hanc. simpl.
    unfold apply_ancestor. by rewrite Hnone.
  - unfold validate_policy_change. rewrite Hanc. simpl.
    unfold check_ancestor. by rewrite decide_True.
Qed.

(** C10 (exact path match).  Only the enforced rules whose path equals
    the changed path are consulted: removing from every entity the rules
    at any other path, dot-prefixes and dot-extensions of the changed
    path included, leaves the outcome of every call unchanged. *)
Theorem only_exact_path_rules_matter fuel D path_ new_value :
  validate_policy_change (only_rules_at path_ <$> entities) fuel D path_
                         new_value =
  validate_policy_change entities fuel D path_ new_value.
Proof.
  unfold validate_policy_change, get_ancestry.
  rewrite lookup_fmap, ancestry_loop_only_rules_at.
  destruct (ancestry_loop entities fuel (entities !! D) [D]) as [ancestry|];
    [|done].
  do 2 f_equal. induction ancestry as [|a ancestry IH]; [done|]. simpl.
  by rewrite check_ancestor_only_rules_at, IH.
Qed.

End Validation.

(** *** Effective policies *)

Section Effective.

Context (entities : gmap string EntityProfile).

Lemma last_rule_at_Some path_ rules r :
  last_rule_at path_ rules = Some r → r ∈ rules ∧ path r = path_.
Proof.
  unfold last_rule_at. intros H%last_Some_elem_of.
  by apply list_elem_of_filter in H as [? ?].
Qed.

Lemma last_rule_at_None path_ rules :
  last_rule_at path_ rules = None ↔ ∀ r, r ∈ rules → path r ≠ path_.
Proof.
  unfold last_rule_at. rewrite last_None. split.
  - intros Hnil r Hr Hp.
    assert (r ∈ filter (fun r => path r = path_) rules) as Hin
      by by apply list_elem_of_filter.
    rewrite Hnil in Hin. by apply elem_of_nil in Hin.
  - intros H. destruct (filter _ rules) as [|r l] eqn:Hf; [done|].
    assert (r ∈ filter (fun r => path r = path_) rules) as Hin
      by (rewrite Hf; left).
    apply list_elem_of_filter in Hin as [Hp Hr]. by destruct (H r Hr).
Qed.

Lemma lookup_fold_rules entity rules
    (result : gmap string EffectivePolicy) path_ :
  fold_left (fun res rule => <[path rule := effective_of entity rule]> res)
            rules result !! path_ =
  match last_rule_at path_ rules with
  | Some r => Some (effective_of entity r)
  | None => result !! path_
  end.
Proof.
  unfold last_rule_at. revert result.
  induction rules as [|r rules IH]; intros result; [done|]. simpl.
  rewrite IH. destruct (decide (path r = path_)) as [Hp|Hp].
  - rewrite filter_cons_True, last_cons by done.
    destruct (last _); [done|]. by rewrite <- Hp, lookup_insert_eq.
  - rewrite filter_cons_False by done.
    destruct (last _); [done|]. by rewrite lookup_insert_ne.
Qed.

Lemma lookup_apply_ancestor (result : gmap string EffectivePolicy) a path_ :
  apply_ancestor entities result a !! path_ =
  match entities !! a with
  | Some entity =>
      match last_rule_at path_ (enforced_rules entity) with
      | Some r => Some (effective_of entity r)
      | None => result !! path_
      end
  | None => result !! path_
  end.
Proof.
  unfold apply_ancestor. destruct (entities !! a) as [entity|]; [|done].
  destruct (enforced_rules entity) as [|r rules] eqn:Hrules; [done|].
  unfold apply_rules. by rewrite lookup_fold_rules, Hrules.
Qed.

(** Root-to-leaf application makes the rule nearest to the leaf win. *)
Lemma lookup_effective chain path_ :
  fold_left (apply_ancestor entities) (rev chain) ∅ !! path_ =
  (fun er => effective_of er.1 er.2) <$> nearest_rule entities path_ chain.
Proof.
  induction chain as [|a chain IH]; [done|]. simpl.
  rewrite fold_left_app. simpl. rewrite lookup_apply_ancestor, IH.
  destruct (entities !! a) as [entity|]; [|done].
  unfold last_rule_at. by destruct (last _).
Qed.

Lemma nearest_rule_is_Some chain path_ :
  is_Some (nearest_rule entities path_ chain) ↔
  ∃ a e r, a ∈ chain ∧ entities !! a = Some e
           ∧ r ∈ enforced_rules e ∧ path r = path_.
Proof.
  induction chain as [|a chain IH]; simpl.
  - split; [by intros [? ?]|]. by intros (? & ? & ? & ?%elem_of_nil & _).
  - destruct (entities !! a) as [entity|] eqn:He.
    + destruct (last _) as [r|] eqn:Hlast.
      * split; [|by eauto]. intros _.
        apply last_rule_at_Some in Hlast as [? ?].
        exists a, entity, r. repeat split; [left|done..].
      * rewrite IH. split.
        -- intros (a' & e & r & ? & ? & ? & ?). exists a', e, r.
           repeat split; [by right|done..].
        -- intros (a' & e & r & [->|?]%elem_of_cons & He' & Hr & Hp).
           ++ assert (e = entity) as -> by congruence. exfalso.
              by eapply (proj1 (last_rule_at_None path_ _) Hlast).
           ++ by exists a', e, r.
    + rewrite IH. split.
      * intros (a' & e & r & ? & ? & ? & ?). exists a', e, r.
        repeat split; [by right|done..].
      * intros (a' & e & r & [->|?]%elem_of_cons & He' & Hr & Hp).
        -- congruence.
        -- by exists a', e, r.
Qed.

Lemma nearest_rule_split nearer a farther path_ e r :
  (∀ x ex rx, x ∈ nearer → entities !! x = Some ex →
              rx ∈ enforced_rules ex → path rx ≠ path_) →
  entities !! a = Some e →
  last_rule_at path_ (enforced_rules e) = Some r →
  nearest_rule entities path_ (nearer ++ a :: farther) = Some (e, r).
Proof.
  intros Hnear He Hlast.
  induction nearer as [|x nearer IH]; simpl.
  - rewrite He. unfold last_rule_at in Hlast. by rewrite Hlast.
  - assert (nearest_rule entities path_ (nearer ++ a :: farther)
            = Some (e, r)) as Hrest.
    { apply IH. intros x' ex rx Hin. apply Hnear. by right. }
    destruct (entities !! x) as [ex|] eqn:Hx; [|done].
    destruct (last _) as [rx|] eqn:Hl; [|done].
    apply last_rule_at_Some in Hl as [Hin Hp].
    by destruct (Hnear x ex rx (list_elem_of_here _ _) Hx Hin).
Qed.

End Effective.

(** *** Termination of the ancestry walk *)

Section Termination.

Context (entities : gmap string EntityProfile).

Lemma is_tree_lookup k e :
  is_tree entities = true → entities !! k = Some e →
  parent_is_shallower entities e = true.
Proof.
  unfold is_tree. rewrite forallb_forall. intros Hall He.
  apply (Hall (k, e)), list_elem_of_In, elem_of_map_to_list, He.
Qed.

Lemma ancestry_loop_terminates n current result :
  is_tree entities = true →
  (∀ e, current = Some e →
        (∃ k, entities !! k = Some e) ∧ Z.to_nat (depth e) < n) →
  is_Some (ancestry_loop entities (S n) current result).
Proof.
  intros Htree. revert current result.
  induction n as [|n IH]; intros current result Hcur; simpl.
  - destruct current as [c|]; [|done].
    destruct (Hcur c eq_refl) as [_ ?]. lia.
  - destruct current as [c|]; [|done].
    destruct (Hcur c eq_refl) as [[k Hk] Hdepth].
    pose proof (is_tree_lookup k c Htree Hk) as Hshallow.
    unfold parent_is_shallower in Hshallow.
    destruct (truthy_parent c) as [p|]; [|done].
    apply IH. intros up Hup. rewrite Hup in Hshallow.
    apply bool_decide_eq_true in Hshallow. split; [by exists p|lia].
Qed.

(** The tree invariant of the data model -- depths not negative, every
    parent found in the store strictly shallower than its child -- is
    enough for the walk to end for every entity id, and with it the two
    operations built on it.  The functions never read [depth]. *)
Lemma ancestry_walk_ends_on_trees entity_id path_ new_value :
  is_tree entities = true →
  ∃ fuel chain result outcome,
    get_ancestry entities fuel entity_id = Some chain
    ∧ compute_effective_policies entities fuel entity_id = Some result
    ∧ validate_policy_change entities fuel entity_id path_ new_value
      = Some outcome.
Proof.
  intros Htree.
  set (n := match entities !! entity_id with
            | Some e => S (Z.to_nat (depth e))
            | None => 0
            end).
  destruct (ancestry_loop_terminates n (entities !! entity_id) [entity_id]
              Htree) as [chain Hchain].
  { intros e He. split; [by exists entity_id|]. subst n. rewrite He. lia. }
  exists (S n), chain.
  unfold compute_effective_policies, validate_policy_change, get_ancestry.
  rewrite Hchain. eauto.
Qed.

End Termination.

(** *** The outcome does not depend on the fuel *)

Lemma validate_mono entities fuel fuel' entity_id path_ new_value outcome :
  validate_policy_change entities fuel entity_id path_ new_value
  = Some outcome →
  fuel ≤ fuel' →
  validate_policy_change entities fuel' entity_id path_ new_value
  = Some outcome.
Proof.
  unfold validate_policy_change.
  destruct (get_ancestry entities fuel entity_id) as [chain|] eqn:Hchain;
    [|done].
  intros H Hle. by rewrite (get_ancestry_mono _ _ _ _ _ Hchain Hle).
Qed.

Lemma validate_deterministic entities fuel fuel' entity_id path_ new_value
    o o' :
  validate_policy_change entities fuel entity_id path_ new_value = Some o →
  validate_policy_change entities fuel' entity_id path_ new_value = Some o' →
  o = o'.
Proof.
  intros H H'. destruct (Nat.le_ge_cases fuel fuel') as [Hle|Hle].
  - apply (validate_mono _ _ _ _ _ _ _ H) in Hle. congruence.
  - apply (validate_mono _ _ _ _ _ _ _ H') in Hle. congruence.
Qed.

(** *** The properties on the stores of the example *)

Section Instances.
Import Demo Cases.

(** A bound held as text by the department raises before the lock of
    the organization is read: no verdict comes back. *)
Lemma locked_rule_behind_raising_check :
  get_ancestry acme_text_bounds 3 ml_team_id = Some acme_chain
  ∧ acme_text_bounds !! corp_id = Some corp_locking
  ∧ corp_bits_lock ∈ enforced_rules corp_locking
  ∧ path corp_bits_lock = min_bits_path
  ∧ enforcement corp_bits_lock = "locked"
  ∧ py_eq (VInt 64) (value corp_bits_lock) = false
  ∧ validate_policy_change acme_text_bounds 3 ml_team_id min_bits_path
                           (VInt 64)
    = Some (Raised TypeError)
  ∧ ∀ fuel o,
      validate_policy_change acme_text_bounds fuel ml_team_id min_bits_path
                             (VInt 64) = Some o →
      o = Raised TypeError.
Proof.
  repeat split; try reflexivity.
  - right. left.
  - intros fuel o H. symmetry.
    by apply (validate_deterministic acme_text_bounds 3 fuel ml_team_id
                min_bits_path (VInt 64)).
Qed.

Lemma acme_looped_never_ends fuel result :
  ancestry_loop acme_looped fuel (Some engineering) result = None
  ∧ ancestry_loop acme_looped fuel (Some acme_corp_looped) result = None.
Proof.
  assert (acme_looped !! corp_id = Some acme_corp_looped) as Hcorp
    by reflexivity.
  assert (acme_looped !! engineering_id = Some engineering) as Heng
    by reflexivity.
  revert result. induction fuel as [|fuel IH]; intros result; [done|].
  cbn [ancestry_loop].
  change (truthy_parent engineering) with (Some corp_id).
  change (truthy_parent acme_corp_looped) with (Some engineering_id).
  cbv beta iota. rewrite Hcorp, Heng. split; apply IH.
Qed.

Lemma acme_looped_ancestry fuel :
  get_ancestry acme_looped fuel ml_team_id = None.
Proof.
  unfold get_ancestry.
  assert (acme_looped !! ml_team_id = Some ml_team) as -> by reflexivity.
  destruct fuel as [|fuel]; [done|]. cbn [ancestry_loop].
  change (truthy_parent ml_team) with (Some engineering_id).
  cbv beta iota.
  assert (acme_looped !! engineering_id = Some engineering) as ->
    by reflexivity.
  apply acme_looped_never_ends.
Qed.

(** With a cycle among the parent pointers the walk never returns, and
    neither do the two operations that start with it. *)
Lemma ancestry_walk_loops_on_cycle :
  is_tree acme_looped = false
  ∧ ¬ (∃ fuel chain, get_ancestry acme_looped fuel ml_team_id = Some chain)
  ∧ ¬ (∃ fuel result,
         compute_effective_policies acme_looped fuel ml_team_id
         = Some result)
  ∧ ¬ (∃ fuel outcome,
         validate_policy_change acme_looped fuel ml_team_id gdpr_path
                                (VBool false) = Some outcome).
Proof.
  split; [reflexivity|].
  unfold compute_effective_policies, validate_policy_change.
  repeat split; intros (fuel & x & H);
    by rewrite acme_looped_ancestry in H.
Qed.



(** A violated [subset] rule over numbers raises while the reason is
    being joined. *)
Lemma subset_violation_over_numbers_raises :
  validate_policy_change acme_ports 3 ml_team_id ports_path
                         (VList [VInt 80]) = Some (Returned allow)
  ∧ validate_policy_change acme_ports 3 ml_team_id ports_path
                           (VList [VInt 8080]) = Some (Raised TypeError).
Proof. split; reflexivity. Qed.

(** The department names as parent an id under which [main] files
    nothing: looking that id up is no error. *)
Lemma unknown_entity_is_not_an_error_main :
  get_ancestry main_entities 1 corp_id = Some [corp_id]
  ∧ compute_effective_policies main_entities 1 corp_id = Some ∅
  ∧ validate_policy_change main_entities 1 corp_id gdpr_path (VBool false)
    = Some (Returned allow).
Proof.
  apply (unknown_entity_is_not_an_error main_entities 0 corp_id gdpr_path
           (VBool false)).
  reflexivity.
Defined.

(** Both operations return normally on an id that is not in the store;
    the only exception of the model, [TypeError], is not raised, and no
    larger fuel changes that. *)
Lemma unknown_entity_returns_normally :
  acme !! ghost_id = None
  ∧ compute_effective_policies acme 1 ghost_id = Some ∅
  ∧ validate_policy_change acme 1 ghost_id gdpr_path (VBool false)
    = Some (Returned allow)
  ∧ ∀ fuel o,
      validate_policy_change acme fuel ghost_id gdpr_path (VBool false)
      = Some o →
      o = Returned allow.
Proof.
  repeat split; try reflexivity.
  intros fuel o H. symmetry.
  by apply (validate_deterministic acme 1 fuel ghost_id gdpr_path
              (VBool false)).
Qed.

(** The block list of the organization is 'additive': emptying it is
    allowed. *)
Lemma unvalidated_kinds_allow_acme :
  validate_policy_change acme 3 ml_team_id blocked_path (VList []) =
  Some (Returned allow).
Proof.
  apply (unvalidated_kinds_allow acme 3 ml_team_id blocked_path (VList [])
           acme_chain); reflexivity.
Defined.


(** A string submitted against the numeric minimum passes. *)
Lemma type_mismatch_allows_acme :
  validate_policy_change acme 3 ml_team_id min_bits_path (VStr "128") =
  Some (Returned allow).
Proof.
  apply (type_mismatch_allows acme 3 ml_team_id min_bits_path (VStr "128")
           acme_chain); reflexivity.
Defined.

(** A list against the minimum of the department, with the lock of the
    organization behind it: the minimum falls through and the lock
    denies. *)
Lemma mismatched_rule_drops_out :
  validate_policy_change acme_text_bounds 3 ml_team_id min_bits_path
                         (VList [])
  = Some (Returned (deny (locked_message min_bits_path corp_locking
                                         corp_bits_lock))).
Proof. reflexivity. Qed.

(** The lock of the organization on [policies.data.residency] binds
    neither the prefix [policies.data] nor a path below it. *)
Lemma residency_lock_binds_its_own_path_only :
  validate_policy_change acme 3 ml_team_id "policies.data.residency"
                         (VList [VStr "US"])
  = Some (Returned
            (deny (locked_message "policies.data.residency" acme_corp
                     (rule "data-residency" "policies.data.residency"
                           (VList [VStr "EU"]) "locked"
                           "Corporate data sovereignty policy"))))
  ∧ validate_policy_change acme 3 ml_team_id "policies.data"
                           (VList [VStr "US"])
    = Some (Returned allow)
  ∧ validate_policy_change acme 3 ml_team_id "policies.data.residency.region"
                           (VList [VStr "US"])
    = Some (Returned allow).
Proof. repeat split; reflexivity. Qed.

(** [main] as written: the department's parent id is not the id the
    organization is filed under, and the rules of the organization reach
    no one. *)
Lemma main_store_loses_the_organization :
  get_ancestry main_entities 3 ml_team_id = Some acme_chain
  ∧ main_entities !! corp_id = None
  ∧ validate_policy_change main_entities 3 ml_team_id gdpr_path
                           (VBool false)
    = Some (Returned allow).
Proof. repeat split; reflexivity. Qed.

End Instances.

(** ** Further properties of the three functions *)

(** *** The shape of a finished walk *)

Section Walk.

Context (entities : gmap string EntityProfile).

Lemma ancestry_loop_shift fuel current front result :
  ancestry_loop entities fuel current (front ++ result) =
  app front <$> ancestry_loop entities fuel current result.
Proof.
  revert current result.
  induction fuel as [|fuel IH]; intros current result; [done|]. simpl.
  destruct current as [c|]; [|done].
  destruct (truthy_parent c) as [p|]; [|done].
  by rewrite <- app_assoc, IH.
Qed.

Lemma ancestry_loop_length fuel current result ancestry :
  ancestry_loop entities fuel current result = Some ancestry →
  length ancestry < length result + fuel.
Proof.
  revert current result.
  induction fuel as [|fuel IH]; intros current result; [done|]. simpl.
  destruct current as [c|]; [|intros [= <-]; lia].
  destruct (truthy_parent c) as [p|]; [|intros [= <-]; lia].
  intros H%IH. rewrite length_app in H. simpl in H. lia.
Qed.

Lemma get_ancestry_step fuel entity_id entity p :
  entities !! entity_id = Some entity →
  truthy_parent entity = Some p →
  get_ancestry entities (S fuel) entity_id =
  cons entity_id <$> get_ancestry entities fuel p.
Proof.
  intros He Hp. unfold get_ancestry. rewrite He. simpl. rewrite Hp.
  apply (ancestry_loop_shift fuel (entities !! p) [entity_id] [p]).
Qed.

Lemma get_ancestry_stop fuel entity_id :
  match entities !! entity_id with
  | Some entity => truthy_parent entity = None
  | None => True
  end →
  get_ancestry entities (S fuel) entity_id = Some [entity_id].
Proof.
  unfold get_ancestry. destruct (entities !! entity_id) as [e|]; [|done].
  simpl. by intros ->.
Qed.

Lemma get_ancestry_linked fuel entity_id ancestry :
  get_ancestry entities fuel entity_id = Some ancestry →
  ∃ rest, ancestry = entity_id :: rest ∧ linked entities entity_id rest.
Proof.
  revert entity_id ancestry.
  induction fuel as [|fuel IH]; intros entity_id ancestry; [done|].
  destruct (entities !! entity_id) as [e|] eqn:He.
  - destruct (truthy_parent e) as [p|] eqn:Hp.
    + rewrite (get_ancestry_step _ _ _ _ He Hp).
      destruct (get_ancestry entities fuel p) as [up|] eqn:Hup; [|done].
      intros [= <-]. destruct (IH _ _ Hup) as (rest & -> & Hlinked).
      exists (p :: rest). split; [done|]. simpl. eauto.
    + rewrite get_ancestry_stop by by rewrite He.
      intros [= <-]. exists []. split; [done|]. simpl. by rewrite He.
  - rewrite get_ancestry_stop by by rewrite He.
    intros [= <-]. exists []. split; [done|]. simpl. by rewrite He.
Qed.

Lemma linked_get_ancestry entity_id rest :
  linked entities entity_id rest →
  get_ancestry entities (S (length rest)) entity_id = Some (entity_id :: rest).
Proof.
  revert entity_id. induction rest as [|next rest IH]; intros entity_id; simpl.
  - intros H. by apply get_ancestry_stop.
  - intros [(e & He & Hp) Hlinked].
    by rewrite (get_ancestry_step _ _ _ _ He Hp), IH.
Qed.

Lemma linked_unique member l1 l2 :
  linked entities member l1 → linked entities member l2 → l1 = l2.
Proof.
  revert member l2. induction l1 as [|x l1 IH]; intros member [|y l2]; simpl.
  - done.
  - intros H [(e & He & Hp) _]. rewrite He in H. congruence.
  - intros [(e & He & Hp) _] H. rewrite He in H. congruence.
  - intros [(e & He & Hp) H1] [(e' & He' & Hp') H2].
    assert (x = y) as -> by congruence. f_equal. by eapply IH.
Qed.

Lemma linked_suffix member nearer a farther :
  linked entities member (nearer ++ a :: farther) →
  linked entities a farther.
Proof.
  revert member. induction nearer as [|x nearer IH]; intros member; simpl.
  - by intros [_ ?].
  - intros [_ H]. by eapply IH.
Qed.

Lemma linked_not_in member rest :
  linked entities member rest → member ∉ rest.
Proof.
  intros Hlinked (nearer & farther & ->)%list_elem_of_split.
  pose proof (linked_suffix _ _ _ _ Hlinked) as Hsuffix.
  pose proof (linked_unique _ _ _ Hlinked Hsuffix) as Heq.
  apply (f_equal length) in Heq. rewrite length_app in Heq. simpl in Heq. lia.
Qed.

Lemma linked_NoDup member rest :
  linked entities member rest → NoDup (member :: rest).
Proof.
  revert member. induction rest as [|next rest IH]; intros member Hlinked.
  - apply NoDup_singleton.
  - apply NoDup_cons. split; [by apply linked_not_in|].
    apply IH. by destruct Hlinked as [_ ?].
Qed.

Lemma linked_lookup member rest i a b :
  linked entities member rest →
  (member :: rest) !! i = Some a → (member :: rest) !! S i = Some b →
  ∃ entity, entities !! a = Some entity ∧ truthy_parent entity = Some b.
Proof.
  revert member i. induction rest as [|next rest IH]; intros member i Hlinked.
  - by destruct i.
  - destruct Hlinked as [Hhere Hlinked]. destruct i as [|i]; simpl.
    + by intros [= <-] [= <-].
    + intros Ha Hb. by eapply IH.
Qed.

Lemma linked_last member rest z :
  linked entities member rest →
  last (member :: rest) = Some z →
  match entities !! z with
  | Some entity => truthy_parent entity = None
  | None => True
  end.
Proof.
  revert member. induction rest as [|next rest IH]; intros member Hlinked.
  - simpl. by intros [= <-].
  - rewrite last_cons_cons. destruct Hlinked as [_ Hlinked]. by apply IH.
Qed.

Lemma linked_in_store member rest y :
  linked entities member rest →
  y ∈ take (length rest) (member :: rest) → is_Some (entities !! y).
Proof.
  revert member. induction rest as [|next rest IH]; intros member Hlinked.
  - simpl. by intros ?%elem_of_nil.
  - destruct Hlinked as [(e & He & _) Hlinked]. simpl.
    intros [->|Hin]%elem_of_cons; [by rewrite He|]. by eapply IH.
Qed.

Lemma linked_walk fuel member rest :
  linked entities member rest → S (length rest) ≤ fuel →
  get_ancestry entities fuel member = Some (member :: rest).
Proof.
  intros Hlinked Hfuel.
  apply (get_ancestry_mono entities (S (length rest))); [|done].
  by apply linked_get_ancestry.
Qed.

Lemma get_ancestry_fuel fuel entity_id ancestry :
  get_ancestry entities fuel entity_id = Some ancestry →
  length ancestry ≤ fuel.
Proof. intros H%ancestry_loop_length. simpl in H. lia. Qed.

(** X1.  A finished walk starts at the entity asked for, steps from each
    id to the truthy parent of the entity stored under it, and stops at
    an id that is not in the store or whose entity names no parent. *)
Theorem ancestry_follows_parent_pointers fuel entity_id ancestry :
  get_ancestry entities fuel entity_id = Some ancestry →
  ancestry !! 0 = Some entity_id
  ∧ (∀ i a b, ancestry !! i = Some a → ancestry !! S i = Some b →
       ∃ entity, entities !! a = Some entity
                 ∧ parent entity = Some b ∧ b ≠ EmptyString)
  ∧ (∀ z, last ancestry = Some z →
       entities !! z = None
       ∨ ∃ entity, entities !! z = Some entity
                   ∧ (parent entity = None
                      ∨ parent entity = Some EmptyString)).
Proof.
  intros (rest & -> & Hlinked)%get_ancestry_linked. split; [done|]. split.
  - intros i a b Ha Hb.
    destruct (linked_lookup _ _ _ _ _ Hlinked Ha Hb) as (e & He & Hp).
    exists e. split; [done|]. unfold truthy_parent in Hp.
    destruct (parent e) as [p|]; [|done].
    destruct (decide (p = EmptyString)); [done|]. by simplify_eq.
  - intros z Hz. pose proof (linked_last _ _ _ Hlinked Hz) as Hstop.
    destruct (entities !! z) as [e|]; [|by left]. right. exists e.
    split; [done|]. unfold truthy_parent in Hstop.
    destruct (parent e) as [p|]; [|by left].
    destruct (decide (p = EmptyString)) as [->|]; [by right|done].
Qed.

(** X2.  A finished walk lists no id twice: once a parent chain comes
    back to an id it has passed, [get_ancestry] does not return. *)
Theorem ancestry_has_no_repeats fuel entity_id ancestry :
  get_ancestry entities fuel entity_id = Some ancestry →
  NoDup ancestry.
Proof.
  intros (rest & -> & Hlinked)%get_ancestry_linked.
  by apply linked_NoDup.
Qed.

(** X3.  A finished walk is at most one id longer than the store has
    entities, and it finishes within that many tests of the loop
    condition. *)
Theorem ancestry_length_bound fuel entity_id ancestry :
  get_ancestry entities fuel entity_id = Some ancestry →
  length ancestry ≤ S (size entities)
  ∧ get_ancestry entities (S (size entities)) entity_id = Some ancestry.
Proof.
  intros (rest & -> & Hlinked)%get_ancestry_linked.
  assert (length rest ≤ size entities) as Hlen.
  { pose proof (linked_NoDup _ _ Hlinked) as Hnodup.
    assert (take (length rest) (entity_id :: rest)
            ⊆+ elements (dom entities)) as Hsub.
    { apply NoDup_submseteq.
      - apply (sublist_NoDup _ (entity_id :: rest)); [exact Hnodup|].
        apply sublist_take.
      - intros y Hy. apply elem_of_elements, elem_of_dom.
        by eapply linked_in_store. }
    apply submseteq_length in Hsub.
    rewrite length_take in Hsub. simpl in Hsub.
    rewrite <- size_dom. unfold size, set_size. simpl. lia. }
  split; [simpl; lia|].
  apply (get_ancestry_mono entities (S (length rest))); [|lia].
  by apply linked_get_ancestry.
Qed.

(** X4.  The ancestry of an ancestor is the rest of the ancestry of its
    descendant: the walk from any id of a finished walk returns the part
    of the list that starts at that id. *)
Theorem ancestry_of_an_ancestor fuel entity_id nearer a farther :
  get_ancestry entities fuel entity_id = Some (nearer ++ a :: farther) →
  get_ancestry entities fuel a = Some (a :: farther).
Proof.
  intros Hwalk.
  destruct (get_ancestry_linked _ _ _ Hwalk) as (rest & Heq & Hlinked).
  assert (linked entities a farther) as Hsuffix.
  { destruct nearer as [|x nearer]; simpl in Heq.
    - by simplify_eq.
    - injection Heq as -> <-. by eapply linked_suffix. }
  apply linked_walk; [done|].
  apply get_ancestry_fuel in Hwalk.
  rewrite length_app in Hwalk. simpl in Hwalk. lia.
Qed.

End Walk.

(** *** Parent and child *)

Section Inheritance.

Context (entities : gmap string EntityProfile).

(** X5.  The effective policies of an entity are those of its parent
    overlaid with the entity's own enforced rules: at a path where the
    entity has rules its last rule there is shown, every other path is
    inherited unchanged. *)
Theorem effective_policies_overlay_parent fuel entity_id entity p inherited :
  entities !! entity_id = Some entity →
  truthy_parent entity = Some p →
  compute_effective_policies entities fuel p = Some inherited →
  ∃ result,
    compute_effective_policies entities (S fuel) entity_id = Some result
    ∧ ∀ path_,
        result !! path_ =
        match last_rule_at path_ (enforced_rules entity) with
        | Some r => Some (effective_of entity r)
        | None => inherited !! path_
        end.
Proof.
  intros He Hp. unfold compute_effective_policies.
  rewrite (get_ancestry_step _ _ _ _ _ He Hp).
  destruct (get_ancestry entities fuel p) as [up|]; [|done].
  intros [= <-]. eexists. split; [done|]. intros path_. simpl.
  rewrite fold_left_app. simpl.
  by rewrite (lookup_apply_ancestor entities), He.
Qed.

Lemma ancestry_loop_own_rules entity_id entity rules fuel :
  entities !! entity_id = Some entity →
  ∀ current result,
    ancestry_loop (<[entity_id := Cases.with_rules entity rules]> entities)
                  fuel current result
    = ancestry_loop entities fuel current result
    ∧ ancestry_loop (<[entity_id := Cases.with_rules entity rules]> entities)
                    fuel (Some (Cases.with_rules entity rules)) result
      = ancestry_loop entities fuel (Some entity) result.
Proof.
  intros He. induction fuel as [|fuel IH]; intros current result; [done|].
  assert (∀ c r,
    match truthy_parent c with
    | Some p =>
        ancestry_loop (<[entity_id := Cases.with_rules entity rules]> entities)
          fuel (<[entity_id := Cases.with_rules entity rules]> entities !! p)
          (r ++ [p])
    | None => Some r
    end =
    match truthy_parent c with
    | Some p => ancestry_loop entities fuel (entities !! p) (r ++ [p])
    | None => Some r
    end) as Hstep.
  { intros c r. destruct (truthy_parent c) as [p|]; [|done].
    destruct (decide (entity_id = p)) as [<-|Hne].
    - rewrite lookup_insert_eq, He. apply (proj2 (IH None _)).
    - rewrite lookup_insert_ne by done. apply (proj1 (IH _ _)). }
  split; simpl.
  - destruct current as [c|]; [|done]. apply Hstep.
  - change (truthy_parent (Cases.with_rules entity rules))
      with (truthy_parent entity).
    apply Hstep.
Qed.

(** X6.  The enforced rules of an entity never bear on the validation of
    its own changes: replacing them by any other list leaves the outcome
    of every call for that entity unchanged. *)
Theorem own_rules_do_not_bind fuel entity_id entity rules path_ new_value :
  entities !! entity_id = Some entity →
  validate_policy_change
    (<[entity_id := Cases.with_rules entity rules]> entities)
    fuel entity_id path_ new_value
  = validate_policy_change entities fuel entity_id path_ new_value.
Proof.
  intros He. unfold validate_policy_change, get_ancestry.
  rewrite lookup_insert_eq, He.
  rewrite (proj2 (ancestry_loop_own_rules _ _ rules fuel He None _)).
  destruct (ancestry_loop entities fuel (Some entity) [entity_id])
    as [ancestry|]; [|done].
  do 2 f_equal. induction ancestry as [|a ancestry IH]; [done|]. simpl.
  rewrite IH. f_equal. unfold check_ancestor.
  destruct (decide (a = entity_id)); [done|].
  by rewrite lookup_insert_ne.
Qed.

Lemma check_ancestors_skip id1 id2 path_ new_value ancestry :
  id1 ∉ ancestry → id2 ∉ ancestry →
  check_ancestors entities id1 path_ new_value ancestry =
  check_ancestors entities id2 path_ new_value ancestry.
Proof.
  induction ancestry as [|a ancestry IH]; [done|].
  intros [Hne1 H1]%not_elem_of_cons [Hne2 H2]%not_elem_of_cons. simpl.
  rewrite IH by done. f_equal. unfold check_ancestor.
  by rewrite !decide_False by done.
Qed.

(** X7.  Validating a change for an entity is checking the enforced
    rules of its parent and then, if none of them stops the call,
    validating the same change for the parent. *)
Theorem validate_goes_through_parent
    fuel entity_id entity p path_ new_value :
  entities !! entity_id = Some entity →
  truthy_parent entity = Some p →
  is_Some (get_ancestry entities (S fuel) entity_id) →
  validate_policy_change entities (S fuel) entity_id path_ new_value =
  match
    match entities !! p with
    | Some up => check_rules up path_ new_value (enforced_rules up)
    | None => Next
    end
  with
  | Next => validate_policy_change entities fuel p path_ new_value
  | Return v => Some (Returned v)
  | Raise x => Some (Raised x)
  end.
Proof.
  intros He Hp [ancestry Hwalk].
  destruct (get_ancestry_linked _ _ _ _ Hwalk) as (rest & -> & Hlinked).
  pose proof (linked_NoDup _ _ _ Hlinked) as Hnodup.
  rewrite (get_ancestry_step _ _ _ _ _ He Hp) in Hwalk.
  destruct (get_ancestry entities fuel p) as [up|] eqn:Hup; [|done].
  injection Hwalk as <-.
  destruct (get_ancestry_head _ _ _ _ Hup) as (farther & ->).
  apply NoDup_cons in Hnodup as [Hid Hnodup].
  apply NoDup_cons in Hnodup as [Hp' _].
  apply not_elem_of_cons in Hid as [Hne Hid].
  unfold validate_policy_change.
  rewrite (get_ancestry_step _ _ _ _ _ He Hp), Hup. simpl.
  unfold check_ancestor at 1. rewrite decide_True by done.
  unfold check_ancestor at 1. rewrite decide_False by done.
  unfold check_ancestor at 1. rewrite decide_True by done.
  rewrite (check_ancestors_skip entity_id p) by done.
  destruct (entities !! p) as [parent_entity|]; [|done].
  rewrite check_rules_or_empty.
  by destruct (check_rules parent_entity path_ new_value _).
Qed.

(** X8.  What an entity is allowed to set, each of its ancestors is
    allowed to set as well: constraints only add up on the way down the
    hierarchy. *)
Theorem allowed_below_allowed_above
    fuel entity_id path_ new_value ancestry A :
  get_ancestry entities fuel entity_id = Some ancestry →
  validate_policy_change entities fuel entity_id path_ new_value
  = Some (Returned allow) →
  A ∈ ancestry →
  validate_policy_change entities fuel A path_ new_value
  = Some (Returned allow).
Proof.
  intros Hwalk Hallowed (nearer & farther & ->)%list_elem_of_split.
  destruct (get_ancestry_linked _ _ _ _ Hwalk) as (rest & Heq & Hlinked).
  pose proof (linked_NoDup _ _ _ Hlinked) as Hnodup. rewrite <- Heq in Hnodup.
  assert (get_ancestry entities fuel A = Some (A :: farther)) as HwalkA.
  { apply linked_walk.
    - destruct nearer as [|x nearer]; simpl in Heq.
      + by simplify_eq.
      + injection Heq as -> <-. by eapply linked_suffix.
    - apply get_ancestry_fuel in Hwalk.
      rewrite length_app in Hwalk. simpl in Hwalk. lia. }
  rewrite (validate_unfold _ _ _ _ _ _ Hwalk) in Hallowed.
  rewrite (validate_unfold _ _ _ _ _ _ HwalkA).
  assert (check_each path_ new_value
            (ancestor_rules entities entity_id path_
                            (nearer ++ A :: farther)) = Next) as Hnext.
  { destruct (check_each path_ new_value _) as [|v|x] eqn:Hc; [done| |done].
    apply check_each_deny in Hc as (why & ->). by simplify_eq. }
  rewrite check_each_next in Hnext.
  assert (check_each path_ new_value
            (ancestor_rules entities A path_ (A :: farther)) = Next) as ->;
    [|done].
  apply check_each_next. intros e r Hin.
  apply elem_of_ancestor_rules in Hin as (a & Ha & HaA & Hea & Hr & Hpath).
  apply elem_of_cons in Ha as [->|Ha]; [done|].
  apply Hnext, elem_of_ancestor_rules. exists a.
  split; [apply elem_of_app; right; by right|]. split; [|done].
  intros ->. destruct nearer as [|x nearer]; simpl in Heq.
  - injection Heq as -> _. apply NoDup_cons in Hnodup as [Hnot _].
    by apply Hnot.
  - injection Heq as -> _. simpl in Hnodup.
    apply NoDup_cons in Hnodup as [Hnot _]. apply Hnot.
    apply elem_of_app. right. by right.
Qed.

Lemma nearest_rule_Some chain path_ e r :
  nearest_rule entities path_ chain = Some (e, r) →
  ∃ a, a ∈ chain ∧ entities !! a = Some e
       ∧ r ∈ enforced_rules e ∧ path r = path_.
Proof.
  induction chain as [|a chain IH]; [done|]. simpl.
  destruct (entities !! a) as [entity|] eqn:He.
  - destruct (last _) as [rule|] eqn:Hlast.
    + intros [= <- <-]. apply last_rule_at_Some in Hlast as [? ?].
      exists a. repeat split; [left|done..].
    + intros (a' & ? & ?)%IH. exists a'. split; [by right|done].
  - intros (a' & ? & ?)%IH. exists a'. split; [by right|done].
Qed.

(** X9.  What the effective policies of the parent show as locked, the
    child cannot change: a new value that differs from the value shown
    is never allowed; the call returns a denial, or raises when a check
    read before the lock raises. *)
Theorem effective_lock_of_parent_binds_child
    fuel entity_id entity p inherited path_ shown new_value :
  entities !! entity_id = Some entity →
  truthy_parent entity = Some p →
  is_Some (get_ancestry entities (S fuel) entity_id) →
  compute_effective_policies entities fuel p = Some inherited →
  inherited !! path_ = Some shown →
  locked shown = true →
  py_eq new_value (eff_value shown) = false →
  (∃ why,
     validate_policy_change entities (S fuel) entity_id path_ new_value =
     Some (Returned (deny why)))
  ∨ (∃ x,
       validate_policy_change entities (S fuel) entity_id path_ new_value =
       Some (Raised x)).
Proof.
  intros He Hp [ancestry Hwalk] Hcompute Hshown Hlocked Hneq.
  destruct (get_ancestry_linked _ _ _ _ Hwalk) as (rest & -> & Hlinked).
  pose proof (linked_not_in _ _ _ Hlinked) as Hnot.
  pose proof Hwalk as Hwalk'.
  rewrite (get_ancestry_step _ _ _ _ _ He Hp) in Hwalk'.
  unfold compute_effective_policies in Hcompute.
  destruct (get_ancestry entities fuel p) as [up|]; [|done].
  injection Hwalk' as ->. injection Hcompute as <-.
  rewrite lookup_effective in Hshown.
  destruct (nearest_rule entities path_ rest) as [[e r]|] eqn:Hnearest;
    [|done].
  injection Hshown as <-. simpl in Hlocked, Hneq.
  apply bool_decide_eq_true in Hlocked.
  apply nearest_rule_Some in Hnearest as (a & Ha & Hea & Hr & Hpath).
  destruct (locked_rule_never_allows entities (S fuel) entity_id path_
              new_value (entity_id :: rest) a e r)
    as [Hdeny|(x & Hraise & _)]; try done.
  - by right.
  - intros ->. by apply Hnot.
  - by left.
  - right. by exists x.
Qed.

(** X10.  A verdict that comes back carries a reason exactly when it is
    a denial. *)
Theorem reason_comes_with_denial fuel entity_id path_ new_value v :
  validate_policy_change entities fuel entity_id path_ new_value
  = Some (Returned v) →
  (allowed v = true ∧ verdict_reason v = None)
  ∨ (allowed v = false ∧ ∃ why, verdict_reason v = Some why).
Proof.
  unfold validate_policy_change.
  destruct (get_ancestry entities fuel entity_id) as [ancestry|]; [|done].
  rewrite check_ancestors_each.
  destruct (check_each path_ new_value _) as [|v'|x] eqn:Hc; simpl;
    intros [= <-].
  - by left.
  - apply check_each_deny in Hc as (why & ->). right. eauto.
Qed.

(** X11.  An entity with no parent, with the empty string as parent, or
    with a parent id that is not in the store is bound by nothing: every
    change is allowed, and its effective policies are its own enforced
    rules alone. *)
Theorem no_parent_in_store_no_constraint
    fuel entity_id entity path_ new_value :
  entities !! entity_id = Some entity →
  match truthy_parent entity with
  | Some p => entities !! p = None
  | None => True
  end →
  validate_policy_change entities (S (S fuel)) entity_id path_ new_value
  = Some (Returned allow)
  ∧ ∃ result,
      compute_effective_policies entities (S (S fuel)) entity_id
      = Some result
      ∧ ∀ q, result !! q =
             effective_of entity <$> last_rule_at q (enforced_rules entity).
Proof.
  intros He Hparent.
  assert (∃ ancestry,
    get_ancestry entities (S (S fuel)) entity_id = Some ancestry
    ∧ check_ancestors entities entity_id path_ new_value ancestry = Next
    ∧ ∀ q, fold_left (apply_ancestor entities) (rev ancestry) ∅ !! q
           = effective_of entity <$> last_rule_at q (enforced_rules entity))
    as (ancestry & Hwalk & Hcheck & Hfold).
  { destruct (truthy_parent entity) as [p|] eqn:Hp.
    - exists [entity_id; p]. split; [|split].
      + rewrite (get_ancestry_step _ _ _ _ _ He Hp).
        rewrite get_ancestry_stop by by rewrite Hparent. done.
      + simpl. unfold check_ancestor. rewrite decide_True by done.
        rewrite Hparent. by destruct (decide (p = entity_id)).
      + intros q. simpl.
        rewrite (lookup_apply_ancestor entities), He.
        unfold apply_ancestor. rewrite Hparent.
        by destruct (last_rule_at q (enforced_rules entity)).
    - exists [entity_id]. split; [|split].
      + apply get_ancestry_stop. by rewrite He.
      + simpl. unfold check_ancestor. by rewrite decide_True.
      + intros q. simpl. rewrite (lookup_apply_ancestor entities), He.
        by destruct (last_rule_at q (enforced_rules entity)). }
  unfold validate_policy_change, compute_effective_policies.
  rewrite Hwalk, Hcheck. split; [done|]. eauto.
Qed.

End Inheritance.

(** *** Families of rules at one path *)

Section Families.

Context (entities : gmap string EntityProfile).

Lemma checks_cleanly_family (family : EnforcedRule → bool)
    entity_id path_ new_value ancestry :
  (∀ e r, family r = true →
          is_raise (check_rule e path_ new_value r) = false) →
  forallb (fun er => family er.2)
          (ancestor_rules entities entity_id path_ ancestry) = true →
  checks_cleanly entities entity_id path_ new_value ancestry = true.
Proof.
  intros Hfamily. unfold checks_cleanly. rewrite !forallb_forall.
  intros Hall er Hin. by rewrite Hfamily by by apply Hall.
Qed.

(** With no raising check the change is allowed exactly when no rule
    read is violated. *)
Lemma allowed_iff_none_violated fuel entity_id path_ new_value ancestry :
  get_ancestry entities fuel entity_id = Some ancestry →
  checks_cleanly entities entity_id path_ new_value ancestry = true →
  ∃ v,
    validate_policy_change entities fuel entity_id path_ new_value
    = Some (Returned v)
    ∧ (allowed v = true ↔
       ∀ A e r, A ∈ ancestry → A ≠ entity_id → entities !! A = Some e →
                r ∈ enforced_rules e → path r = path_ →
                violates new_value r = false).
Proof.
  intros Hwalk Hclean. rewrite (validate_unfold _ _ _ _ _ _ Hwalk).
  destruct (verdict_iff_violated _ _ _ _ _ Hclean) as (v & Hfin & Hiff).
  exists v. split; [by rewrite Hfin|]. split.
  - intros Hallowed A e r HA HAD He Hr Hp.
    destruct (violates new_value r) eqn:Hv; [|done].
    assert (allowed v = false); [|congruence].
    apply Hiff. exists (e, r). split; [|done].
    apply elem_of_ancestor_rules. by exists A.
  - intros Hnone. destruct (allowed v) eqn:Hallowed; [done|].
    destruct (proj1 Hiff eq_refl) as ([e r] & Hin & Hv).
    apply elem_of_ancestor_rules in Hin as (A & ? & ? & ? & ? & ?).
    simpl in Hv. rewrite (Hnone A e r) in Hv; done.
Qed.

Lemma bound_rule_cases rule :
  is_bound_rule rule = true →
  (enforcement rule = "min" ∨ enforcement rule = "max")
  ∧ ∃ bound, as_number (value rule) = Some bound.
Proof.
  unfold is_bound_rule.
  intros [Hk [bound Hb]%bool_decide_eq_true]%andb_true_iff.
  apply bool_decide_eq_true in Hk.
  rewrite !elem_of_cons, elem_of_nil in Hk. split; [tauto|by exists bound].
Qed.

Lemma check_rule_bound_clean entity path_ new_value rule :
  is_bound_rule rule = true →
  is_raise (check_rule entity path_ new_value rule) = false.
Proof.
  intros [Hk [bound Hb]]%bound_rule_cases. unfold check_rule.
  destruct (decide (path rule = path_)); [|done].
  destruct Hk as [Hk|Hk]; rewrite Hk, Hb; simpl;
    destruct (as_number new_value) as [n|]; try done.
  - by destruct (n <? bound)%Z.
  - by destruct (n >? bound)%Z.
Qed.

(** X12.  Over a finished ancestry walk: when the rules at a path are
    'min' and 'max' rules holding numbers ([bool] or [int]), the numbers
    that may be set are those inside every bound of every ancestor, the
    bounds themselves included. *)
Theorem bounds_of_all_ancestors_apply
    fuel entity_id path_ new_value n ancestry :
  get_ancestry entities fuel entity_id = Some ancestry →
  as_number new_value = Some n →
  forallb (fun er => is_bound_rule er.2)
          (ancestor_rules entities entity_id path_ ancestry) = true →
  ∃ v,
    validate_policy_change entities fuel entity_id path_ new_value
    = Some (Returned v)
    ∧ (allowed v = true ↔
       ∀ A e r bound,
         A ∈ ancestry → A ≠ entity_id → entities !! A = Some e →
         r ∈ enforced_rules e → path r = path_ →
         as_number (value r) = Some bound →
         (enforcement r = "min" → (bound ≤ n)%Z)
         ∧ (enforcement r = "max" → (n ≤ bound)%Z)).
Proof.
  intros Hwalk Hn Hall.
  destruct (allowed_iff_none_violated fuel entity_id path_ new_value
              ancestry Hwalk) as (v & Hv & Hiff).
  { apply (checks_cleanly_family is_bound_rule); [|done].
    intros. by apply check_rule_bound_clean. }
  exists v. split; [done|]. rewrite Hiff. clear Hiff Hv.
  rewrite forallb_forall in Hall.
  split.
  - intros Hnone A e r bound HA HAD He Hr Hp Hb.
    pose proof (Hnone A e r HA HAD He Hr Hp) as Hv.
    unfold violates in Hv. rewrite Hn, Hb in Hv.
    split; intros Hk; rewrite Hk in Hv; simpl in Hv; lia.
  - intros Hin A e r HA HAD He Hr Hp.
    assert (is_bound_rule r = true) as Hbound.
    { apply (Hall (e, r)), list_elem_of_In, elem_of_ancestor_rules.
      by exists A. }
    apply bound_rule_cases in Hbound as [Hk [bound Hb]].
    destruct (Hin A e r bound HA HAD He Hr Hp Hb) as [Hmin Hmax].
    unfold violates. rewrite Hn, Hb.
    destruct Hk as [Hk|Hk]; rewrite Hk; simpl.
    + specialize (Hmin Hk). lia.
    + specialize (Hmax Hk). lia.
Qed.

Lemma strs_inr items names :
  strs items = inr names → items = map VStr names.
Proof.
  revert names. induction items as [|v items IH]; intros names; simpl.
  - by intros [= <-].
  - destruct v; try done.
    destruct (strs items) as [|ss]; [done|].
    intros [= <-]. simpl. by rewrite (IH ss).
Qed.

Lemma as_names_Some v names :
  as_names v = Some names → v = VList (map VStr names).
Proof.
  unfold as_names. destruct v; try done. simpl.
  destruct (strs items) as [|ss] eqn:Hs; [done|].
  intros [= <-]. by rewrite (strs_inr _ _ Hs).
Qed.

Lemma names_rule_cases rule :
  is_names_rule rule = true →
  enforcement rule = "subset"
  ∧ ∃ names, as_names (value rule) = Some names.
Proof.
  unfold is_names_rule.
  intros [Hk [names Hn]%bool_decide_eq_true]%andb_true_iff.
  apply bool_decide_eq_true in Hk. split; [done|by exists names].
Qed.

Lemma check_rule_names entity path_ rule names new_names :
  path rule = path_ →
  enforcement rule = "subset" →
  as_names (value rule) = Some names →
  check_rule entity path_ (VList (map VStr new_names)) rule =
  match filter (fun s => s ∉ names) new_names with
  | [] => Next
  | invalid =>
      Return (deny (subset_message path_ rule (String.concat ", " invalid)))
  end.
Proof.
  intros Hp Hk Hv%as_names_Some. unfold check_rule.
  rewrite decide_True by done. rewrite Hk, Hv. simpl.
  unfold py_set. rewrite hashable_strs, not_in_set_strs.
  destruct (filter _ new_names) as [|bad invalid] eqn:Hbad; [done|].
  change (VStr bad :: map VStr invalid) with (map VStr (bad :: invalid)).
  by rewrite join_strs.
Qed.

Lemma violates_names rule names new_names :
  enforcement rule = "subset" →
  as_names (value rule) = Some names →
  violates (VList (map VStr new_names)) rule = false ↔ new_names ⊆ names.
Proof.
  intros Hk Hv%as_names_Some. unfold violates. rewrite Hk, Hv. simpl.
  rewrite negb_false_iff, forallb_forall. split.
  - intros Hall s Hs.
    assert (existsb (py_eq (VStr s)) (map VStr names) = true) as Hex.
    { apply Hall, in_map, list_elem_of_In, Hs. }
    rewrite existsb_py_eq_str in Hex. by apply bool_decide_eq_true in Hex.
  - intros Hsub v (s & <- & Hs)%in_map_iff.
    rewrite existsb_py_eq_str. apply bool_decide_eq_true, Hsub.
    by apply list_elem_of_In.
Qed.

(** X13.  Over a finished ancestry walk: when the rules at a path are
    'subset' rules over lists of strings, a list of strings may be set
    exactly when it is inside the list of every ancestor: what is
    allowed is the intersection of the lists. *)
Theorem lists_of_all_ancestors_apply
    fuel entity_id path_ new_names ancestry :
  get_ancestry entities fuel entity_id = Some ancestry →
  forallb (fun er => is_names_rule er.2)
          (ancestor_rules entities entity_id path_ ancestry) = true →
  ∃ v,
    validate_policy_change entities fuel entity_id path_
                           (VList (map VStr new_names))
    = Some (Returned v)
    ∧ (allowed v = true ↔
       ∀ A e r names,
         A ∈ ancestry → A ≠ entity_id → entities !! A = Some e →
         r ∈ enforced_rules e → path r = path_ →
         as_names (value r) = Some names →
         new_names ⊆ names).
Proof.
  intros Hwalk Hall. rewrite forallb_forall in Hall.
  destruct (allowed_iff_none_violated fuel entity_id path_
              (VList (map VStr new_names)) ancestry Hwalk)
    as (v & Hv & Hiff).
  { unfold checks_cleanly. rewrite forallb_forall. intros [e r] Hin.
    pose proof (Hall _ Hin) as [Hk [names Hn]]%names_rule_cases.
    apply list_elem_of_In, elem_of_ancestor_rules in Hin
      as (A & ? & ? & ? & ? & Hp).
    simpl. rewrite (check_rule_names _ _ _ names) by done.
    by destruct (filter _ new_names). }
  exists v. split; [done|]. rewrite Hiff. clear Hiff Hv. split.
  - intros Hnone A e r names HA HAD He Hr Hp Hn.
    assert (is_names_rule r = true) as [Hk _]%names_rule_cases.
    { apply (Hall (e, r)), list_elem_of_In, elem_of_ancestor_rules.
      by exists A. }
    apply (violates_names r); [done..|]. by apply (Hnone A e).
  - intros Hin A e r HA HAD He Hr Hp.
    assert (is_names_rule r = true) as [Hk [names Hn]]%names_rule_cases.
    { apply (Hall (e, r)), list_elem_of_In, elem_of_ancestor_rules.
      by exists A. }
    apply (violates_names r names); [done..|]. by apply (Hin A e r).
Qed.

Lemma not_in_set_hashable parent_set new_items :
  forallb hashable new_items = true →
  not_in_set parent_set new_items =
  inr (List.filter (fun v => negb (existsb (py_eq v) parent_set)) new_items).
Proof.
  induction new_items as [|v rest IH]; [done|]. simpl.
  intros [Hv Hrest]%andb_true_iff. unfold set_contains.
  rewrite Hv, (IH Hrest). by destruct (existsb (py_eq v) parent_set).
Qed.

Lemma strs_not_a_string items bad :
  bad ∈ items → (∀ s, bad ≠ VStr s) → strs items = inl TypeError.
Proof.
  intros Hin Hbad. induction items as [|v rest IH];
    [by apply elem_of_nil in Hin|].
  apply elem_of_cons in Hin as [<-|Hin]; simpl.
  - destruct bad; try done. by destruct (Hbad s).
  - destruct v; try done. by rewrite (IH Hin).
Qed.

(** X14.  Over a finished ancestry walk: a 'subset' rule, the only
    rule at its path, that is violated by an item that is not a string
    does not deny: joining the offending items for the reason raises
    [TypeError], and no verdict comes back. *)
Theorem subset_violation_by_non_string_raises
    fuel entity_id path_ ancestry eA r rule_items new_items bad :
  get_ancestry entities fuel entity_id = Some ancestry →
  ancestor_rules entities entity_id path_ ancestry = [(eA, r)] →
  enforcement r = "subset" →
  value r = VList rule_items →
  forallb hashable rule_items = true →
  forallb hashable new_items = true →
  bad ∈ new_items →
  existsb (py_eq bad) rule_items = false →
  (∀ s, bad ≠ VStr s) →
  validate_policy_change entities fuel entity_id path_ (VList new_items)
  = Some (Raised TypeError).
Proof.
  intros Hwalk Honly Hk Hv Hrule Hnew Hin Hmissing Hbad.
  rewrite (validate_unfold _ _ _ _ _ _ Hwalk).
  assert (path r = path_) as Hp.
  { assert ((eA, r) ∈ ancestor_rules entities entity_id path_ ancestry)
      as Hmem by (rewrite Honly; left).
    by apply elem_of_ancestor_rules in Hmem as (? & ? & ? & ? & ? & ?). }
  rewrite Honly. simpl. unfold check_rule.
  rewrite decide_True by done. rewrite Hk, Hv. simpl.
  unfold py_set. rewrite Hrule, (not_in_set_hashable _ _ Hnew).
  assert (bad ∈ List.filter
            (fun v => negb (existsb (py_eq v) rule_items)) new_items)
    as Hinvalid.
  { apply list_elem_of_In, filter_In. split; [by apply list_elem_of_In|].
    by rewrite Hmissing. }
  destruct (List.filter _ new_items) as [|x invalid] eqn:Hf;
    [by apply elem_of_nil in Hinvalid|].
  unfold join. by rewrite (strs_not_a_string _ bad Hinvalid Hbad).
Qed.

Lemma check_rule_plain_value entity path_ new_value rule :
  as_number new_value = None → as_list new_value = None →
  is_raise (check_rule entity path_ new_value rule) = false
  ∧ (violates new_value rule = true ↔
     enforcement rule = "locked"
     ∧ py_eq new_value (value rule) = false).
Proof.
  intros Hn Hl. unfold check_rule, violates. rewrite Hn, Hl.
  destruct (decide (enforcement rule = "locked")) as [Hk|Hk].
  - split.
    + destruct (decide (path rule = path_)); [|done].
      by destruct (py_eq new_value (value rule)).
    + rewrite negb_true_iff. tauto.
  - split.
    + destruct (decide (path rule = path_)); [|done].
      by repeat case_decide.
    + split; [|tauto]. by repeat case_decide.
Qed.

(** X15.  Over a finished ancestry walk: for a new value that is
    neither a number nor a list (a string or [None]) the call does not
    raise and only locks count: the change is denied exactly when some
    ancestor locks the path to a different value. *)
Theorem plain_value_meets_locks_only
    fuel entity_id path_ new_value ancestry :
  get_ancestry entities fuel entity_id = Some ancestry →
  as_number new_value = None →
  as_list new_value = None →
  ∃ v,
    validate_policy_change entities fuel entity_id path_ new_value
    = Some (Returned v)
    ∧ (allowed v = false ↔
       ∃ A e r, A ∈ ancestry ∧ A ≠ entity_id ∧ entities !! A = Some e
                ∧ r ∈ enforced_rules e ∧ path r = path_
                ∧ enforcement r = "locked"
                ∧ py_eq new_value (value r) = false).
Proof.
  intros Hwalk Hn Hl. rewrite (validate_unfold _ _ _ _ _ _ Hwalk).
  destruct (verdict_iff_violated entities entity_id path_ new_value ancestry)
    as (v & Hfin & Hiff).
  { unfold checks_cleanly. rewrite forallb_forall. intros [e r] _. simpl.
    by rewrite (proj1 (check_rule_plain_value e path_ new_value r Hn Hl)). }
  exists v. split; [by rewrite Hfin|]. rewrite Hiff. split.
  - intros ([e r] & Hin & Hv).
    apply elem_of_ancestor_rules in Hin as (A & ? & ? & ? & ? & ?).
    apply (check_rule_plain_value e path_ new_value r Hn Hl) in Hv
      as [? ?].
    exists A, e, r. repeat split; done.
  - intros (A & e & r & HA & HAD & He & Hr & Hp & Hk & Hneq).
    exists (e, r). split; [apply elem_of_ancestor_rules; by exists A|].
    by apply (check_rule_plain_value e path_ new_value r Hn Hl).
Qed.

End Families.

(** *** Entities off the chain *)

Lemma linked_agree entities others member rest :
  (∀ a, a ∈ member :: rest → others !! a = entities !! a) →
  linked entities member rest → linked others member rest.
Proof.
  revert member. induction rest as [|next rest IH]; intros member Hagree; simpl.
  - by rewrite Hagree by left.
  - intros [Hhere Hlinked]. rewrite Hagree by left. split; [done|].
    apply IH; [|done]. intros a Ha. apply Hagree. by right.
Qed.

(** X16.  Only the entities on the ancestry of an entity bear on it: in
    any other store that files the same entities under the ids of that
    ancestry, both operations give the same result for the entity,
    whatever else the two stores hold. *)
Theorem entities_off_the_chain_do_not_matter
    (entities others : gmap string EntityProfile)
    fuel entity_id path_ new_value ancestry :
  get_ancestry entities fuel entity_id = Some ancestry →
  (∀ a, a ∈ ancestry → others !! a = entities !! a) →
  validate_policy_change others fuel entity_id path_ new_value
  = validate_policy_change entities fuel entity_id path_ new_value
  ∧ compute_effective_policies others fuel entity_id
    = compute_effective_policies entities fuel entity_id.
Proof.
  intros Hwalk Hagree.
  destruct (get_ancestry_linked _ _ _ _ Hwalk) as (rest & -> & Hlinked).
  assert (get_ancestry others fuel entity_id = Some (entity_id :: rest))
    as Hwalk'.
  { apply linked_walk; [by apply (linked_agree entities)|].
    by apply get_ancestry_fuel in Hwalk. }
  unfold validate_policy_change, compute_effective_policies.
  rewrite Hwalk, Hwalk'. split; f_equal.
  - f_equal. revert Hagree. generalize (entity_id :: rest) as l. intros l Hagree.
    induction l as [|a l IH]; [done|]. simpl.
    rewrite IH by (intros; apply Hagree; by right).
    unfold check_ancestor. by rewrite Hagree by left.
  - assert (∀ l acc, (∀ a, a ∈ l → others !! a = entities !! a) →
              fold_left (apply_ancestor others) l acc
              = fold_left (apply_ancestor entities) l acc) as Hfold.
    { induction l as [|a l IH]; intros acc Hl; [done|]. simpl.
      rewrite IH by (intros; apply Hl; by right).
      unfold apply_ancestor. by rewrite Hl by left. }
    apply Hfold. intros a Ha. apply Hagree.
    by apply list_elem_of_In, in_rev, list_elem_of_In.
Qed.

(** *** The further properties on the stores of the example *)

Section MoreInstances.
Import Demo Cases.

Lemma ancestry_follows_parent_pointers_acme :
  ∃ entity, acme !! ml_team_id = Some entity
            ∧ parent entity = Some engineering_id
            ∧ engineering_id ≠ EmptyString.
Proof.
  destruct (ancestry_follows_parent_pointers acme 3 ml_team_id acme_chain
              eq_refl) as (_ & Hstep & _).
  apply (Hstep 0 ml_team_id engineering_id); reflexivity.
Defined.

Lemma ancestry_has_no_repeats_acme : NoDup acme_chain.
Proof.
  apply (ancestry_has_no_repeats acme 3 ml_team_id). reflexivity.
Defined.

Lemma ancestry_length_bound_acme :
  length acme_chain ≤ S (size acme)
  ∧ get_ancestry acme (S (size acme)) ml_team_id = Some acme_chain.
Proof.
  apply (ancestry_length_bound acme 3 ml_team_id). reflexivity.
Defined.

Lemma ancestry_of_an_ancestor_acme :
  get_ancestry acme 3 engineering_id = Some [engineering_id; corp_id].
Proof.
  apply (ancestry_of_an_ancestor acme 3 ml_team_id [ml_team_id]
           engineering_id [corp_id]).
  reflexivity.
Defined.

Lemma effective_policies_overlay_parent_acme :
  ∃ result,
    compute_effective_policies acme 3 ml_team_id = Some result
    ∧ ∀ path_,
        result !! path_ =
        match last_rule_at path_ (enforced_rules ml_team) with
        | Some r => Some (effective_of ml_team r)
        | None => engineering_effective !! path_
        end.
Proof.
  apply (effective_policies_overlay_parent acme 2 ml_team_id ml_team
           engineering_id engineering_effective); reflexivity.
Defined.

Lemma own_rules_do_not_bind_acme :
  validate_policy_change (<[ml_team_id := with_rules ml_team []]> acme)
                         3 ml_team_id gdpr_path (VBool false)
  = validate_policy_change acme 3 ml_team_id gdpr_path (VBool false).
Proof.
  apply (own_rules_do_not_bind acme 3 ml_team_id ml_team []). reflexivity.
Defined.

Lemma validate_goes_through_parent_acme :
  validate_policy_change acme 3 ml_team_id gdpr_path (VBool false) =
  match
    match acme !! engineering_id with
    | Some up => check_rules up gdpr_path (VBool false) (enforced_rules up)
    | None => Next
    end
  with
  | Next => validate_policy_change acme 2 engineering_id gdpr_path
                                   (VBool false)
  | Return v => Some (Returned v)
  | Raise x => Some (Raised x)
  end.
Proof.
  apply (validate_goes_through_parent acme 2 ml_team_id ml_team
           engineering_id gdpr_path (VBool false)).
  - reflexivity.
  - reflexivity.
  - exists acme_chain. reflexivity.
Defined.

Lemma allowed_below_allowed_above_acme :
  validate_policy_change acme 3 engineering_id min_bits_path (VInt 512)
  = Some (Returned allow).
Proof.
  apply (allowed_below_allowed_above acme 3 ml_team_id min_bits_path
           (VInt 512) acme_chain engineering_id).
  - reflexivity.
  - reflexivity.
  - right. left.
Defined.

Lemma effective_lock_of_parent_binds_child_acme :
  (∃ why,
     validate_policy_change acme 3 ml_team_id gdpr_path (VBool false) =
     Some (Returned (deny why)))
  ∨ (∃ x,
       validate_policy_change acme 3 ml_team_id gdpr_path (VBool false) =
       Some (Raised x)).
Proof.
  apply (effective_lock_of_parent_binds_child acme 2 ml_team_id ml_team
           engineering_id engineering_effective gdpr_path gdpr_lock_shown
           (VBool false)).
  - reflexivity.
  - reflexivity.
  - exists acme_chain. reflexivity.
  - reflexivity.
  - reflexivity.
  - reflexivity.
  - reflexivity.
Defined.

Lemma reason_comes_with_denial_acme :
  (allowed (deny (locked_message gdpr_path acme_corp corp_gdpr_rule)) = true
   ∧ verdict_reason
       (deny (locked_message gdpr_path acme_corp corp_gdpr_rule)) = None)
  ∨ (allowed (deny (locked_message gdpr_path acme_corp corp_gdpr_rule))
     = false
     ∧ ∃ why,
         verdict_reason
           (deny (locked_message gdpr_path acme_corp corp_gdpr_rule))
         = Some why).
Proof.
  apply (reason_comes_with_denial acme 3 ml_team_id gdpr_path (VBool false)).
  reflexivity.
Defined.

Lemma no_parent_in_store_no_constraint_acme :
  validate_policy_change acme 2 corp_id gdpr_path (VBool false)
  = Some (Returned allow)
  ∧ ∃ result,
      compute_effective_policies acme 2 corp_id = Some result
      ∧ ∀ q, result !! q =
             effective_of acme_corp <$> last_rule_at q (enforced_rules acme_corp).
Proof.
  apply (no_parent_in_store_no_constraint acme 0 corp_id acme_corp gdpr_path
           (VBool false)).
  - reflexivity.
  - exact I.
Defined.

Lemma bounds_of_all_ancestors_apply_acme :
  ∃ v,
    validate_policy_change acme 3 ml_team_id min_bits_path (VInt 256)
    = Some (Returned v)
    ∧ allowed v = true.
Proof.
  destruct (bounds_of_all_ancestors_apply acme 3 ml_team_id min_bits_path
              (VInt 256) 256 acme_chain eq_refl eq_refl eq_refl)
    as (v & Hv & Hiff).
  exists v. split; [exact Hv|]. injection Hv as <-. reflexivity.
Defined.

Lemma lists_of_all_ancestors_apply_acme :
  ∃ v,
    validate_policy_change acme_narrowed 3 ml_team_id models_path
                           (VList (map VStr ["gpt-4"]))
    = Some (Returned v)
    ∧ allowed v = false.
Proof.
  destruct (lists_of_all_ancestors_apply acme_narrowed 3 ml_team_id
              models_path ["gpt-4"] acme_chain eq_refl eq_refl)
    as (v & Hv & Hiff).
  exists v. split; [exact Hv|]. injection Hv as <-. reflexivity.
Defined.

Lemma subset_violation_by_non_string_raises_acme :
  validate_policy_change acme_ports 3 ml_team_id ports_path
                         (VList [VInt 443; VInt 8080])
  = Some (Raised TypeError).
Proof.
  apply (subset_violation_by_non_string_raises acme_ports 3 ml_team_id
           ports_path acme_chain (with_rules acme_corp [corp_ports_rule])
           corp_ports_rule [VInt 80; VInt 443] [VInt 443; VInt 8080]
           (VInt 8080)); try reflexivity.
  - right. left.
  - discriminate.
Defined.

Lemma plain_value_meets_locks_only_acme :
  ∃ v,
    validate_policy_change acme 3 ml_team_id min_bits_path (VStr "strong")
    = Some (Returned v)
    ∧ (allowed v = false ↔
       ∃ A e r, A ∈ acme_chain ∧ A ≠ ml_team_id ∧ acme !! A = Some e
                ∧ r ∈ enforced_rules e ∧ path r = min_bits_path
                ∧ enforcement r = "locked"
                ∧ py_eq (VStr "strong") (value r) = false).
Proof.
  apply (plain_value_meets_locks_only acme 3 ml_team_id min_bits_path
           (VStr "strong") acme_chain); reflexivity.
Defined.

Lemma entities_off_the_chain_do_not_matter_acme :
  validate_policy_change acme_with_sales 3 ml_team_id gdpr_path (VBool false)
  = validate_policy_change acme 3 ml_team_id gdpr_path (VBool false)
  ∧ compute_effective_policies acme_with_sales 3 ml_team_id
    = compute_effective_policies acme 3 ml_team_id.
Proof.
  apply (entities_off_the_chain_do_not_matter acme acme_with_sales 3
           ml_team_id gdpr_path (VBool false) acme_chain).
  - reflexivity.
  - intros a Ha.
    repeat (apply elem_of_cons in Ha as [->|Ha]; [reflexivity|]).
    by apply elem_of_nil in Ha.
Defined.

End MoreInstances.

(** ** The walk and the parent relation *)

(** *** A finished walk against the parent pointers *)

Section Order.

Context (entities : gmap string EntityProfile).

Lemma linked_step_inv x y l :
  linked entities x l → parent_step entities x y →
  ∃ l', l = y :: l' ∧ linked entities y l'.
Proof.
  intros Hlinked (e & He & Hp). destruct l as [|z l]; simpl in Hlinked.
  - rewrite He in Hlinked. congruence.
  - destruct Hlinked as [(e' & He' & Hp') Hl].
    assert (z = y) as -> by congruence. eauto.
Qed.

Lemma linked_strict_ancestor x l y :
  linked entities x l → y ∈ l → strict_ancestor entities x y.
Proof.
  unfold strict_ancestor. revert x.
  induction l as [|z l IH]; intros x Hlinked Hy.
  - by apply elem_of_nil in Hy.
  - destruct Hlinked as [Hstep Hl].
    apply elem_of_cons in Hy as [->|Hy].
    + by apply tc_once.
    + eapply tc_l; [exact Hstep|]. by apply IH.
Qed.

Lemma strict_ancestor_linked x l y :
  linked entities x l → strict_ancestor entities x y → y ∈ l.
Proof.
  unfold strict_ancestor. intros Hlinked Htc. revert l Hlinked.
  induction Htc as [x y Hstep|x z y Hstep Htc IH]; intros l Hlinked.
  - destruct (linked_step_inv _ _ _ Hlinked Hstep) as (l' & -> & _). left.
  - destruct (linked_step_inv _ _ _ Hlinked Hstep) as (l' & -> & Hl').
    right. by apply IH.
Qed.

Lemma chain_member_linked x l y :
  linked entities x l → chain_member entities x y → y ∈ x :: l.
Proof.
  intros Hlinked [->|Htc]%rtc_tc; [left|].
  right. by eapply strict_ancestor_linked.
Qed.

Lemma linked_chain_member x l y :
  linked entities x l → y ∈ x :: l → chain_member entities x y.
Proof.
  intros Hlinked [->|Hy]%elem_of_cons; [apply rtc_refl|].
  apply tc_rtc. by eapply linked_strict_ancestor.
Qed.

(** A finished walk has passed no id twice: no id on it is its own
    strict ancestor. *)
Lemma linked_acyclic x l :
  linked entities x l → ¬ strict_ancestor entities x x.
Proof.
  intros Hlinked Htc. eapply linked_not_in; [exact Hlinked|].
  by eapply strict_ancestor_linked.
Qed.

Lemma linked_chain_suffix x l nearer a farther :
  linked entities x l → x :: l = nearer ++ a :: farther →
  linked entities a farther.
Proof.
  intros Hlinked Heq. destruct nearer as [|y nearer]; simpl in Heq.
  - by simplify_eq.
  - injection Heq as -> ->. by eapply linked_suffix.
Qed.

(** What the walk lists before [a] is nearer to the leaf than [a]. *)
Lemma linked_nearer x l nearer a farther c :
  linked entities x l → x :: l = nearer ++ a :: farther → c ∈ nearer →
  strict_ancestor entities c a.
Proof.
  intros Hlinked Heq (n1 & n2 & ->)%list_elem_of_split.
  rewrite <- app_assoc in Heq. simpl in Heq.
  apply (linked_strict_ancestor c (n2 ++ a :: farther)).
  - by eapply linked_chain_suffix.
  - apply elem_of_app. right. left.
Qed.

(** And whatever is nearer to the leaf than [a] is listed before [a]. *)
Lemma linked_between x l nearer a farther c :
  linked entities x l → x :: l = nearer ++ a :: farther →
  chain_member entities x c → strict_ancestor entities c a → c ∈ nearer.
Proof.
  intros Hlinked Heq Hc Hca.
  pose proof (linked_chain_suffix _ _ _ _ _ Hlinked Heq) as Hsuffix.
  pose proof (chain_member_linked _ _ _ Hlinked Hc) as Hin.
  rewrite Heq in Hin. apply elem_of_app in Hin as [Hin|Hin]; [done|].
  exfalso. apply (linked_acyclic _ _ Hsuffix).
  apply elem_of_cons in Hin as [->|Hin]; [done|].
  eapply tc_trans; [|exact Hca].
  by eapply linked_strict_ancestor.
Qed.

(** The strict ancestors are the ids a finished walk lists after the
    first, and the walk lists them by distance: before [A] come exactly
    the strict ancestors nearer to [D] than [A]. *)
Lemma strict_ancestor_split fuel D ancestry A :
  get_ancestry entities fuel D = Some ancestry →
  strict_ancestor entities D A →
  ∃ nearer farther,
    ancestry = D :: nearer ++ A :: farther
    ∧ A ≠ D
    ∧ ∀ B, B ∈ nearer ↔
           strict_ancestor entities D B ∧ strict_ancestor entities B A.
Proof.
  intros (rest & -> & Hlinked)%get_ancestry_linked HA.
  pose proof (strict_ancestor_linked _ _ _ Hlinked HA)
    as (nearer & farther & ->)%list_elem_of_split.
  pose proof (linked_not_in _ _ _ Hlinked) as Hnot.
  exists nearer, farther. split; [done|]. split.
  - intros ->. apply Hnot, elem_of_app. right. left.
  - intros B. split.
    + intros HB. split.
      * apply (linked_strict_ancestor D (nearer ++ A :: farther)); [done|].
        apply elem_of_app. by left.
      * apply (linked_nearer D (nearer ++ A :: farther) (D :: nearer) A
                 farther); [done|done|by right].
    + intros [HDB HBA].
      assert (B ∈ D :: nearer) as HB.
      { apply (linked_between D (nearer ++ A :: farther) (D :: nearer) A
                 farther); [done|done|by apply tc_rtc|done]. }
      apply elem_of_cons in HB as [->|HB]; [|done].
      exfalso. by apply (linked_acyclic D _ Hlinked).
Qed.

Lemma strict_ancestor_in_walk fuel D ancestry A :
  get_ancestry entities fuel D = Some ancestry →
  strict_ancestor entities D A ↔ A ∈ ancestry ∧ A ≠ D.
Proof.
  intros (rest & -> & Hlinked)%get_ancestry_linked.
  pose proof (linked_not_in _ _ _ Hlinked) as Hnot. split.
  - intros HA%(strict_ancestor_linked _ _ _ Hlinked). split; [by right|].
    by intros ->.
  - intros [[->|HA]%elem_of_cons Hne]; [done|].
    by eapply linked_strict_ancestor.
Qed.

Lemma chain_member_in_walk fuel D ancestry a :
  get_ancestry entities fuel D = Some ancestry →
  chain_member entities D a ↔ a ∈ ancestry.
Proof.
  intros (rest & -> & Hlinked)%get_ancestry_linked. split.
  - by apply chain_member_linked.
  - by apply linked_chain_member.
Qed.

(** *** Cycles *)

(** Following the parent pointers from an id that reaches no cycle, each
    step leaves one entity fewer to visit. *)
Lemma no_cycle_linked entity_id :
  ¬ reaches_a_cycle entities entity_id →
  ∀ n (visited : gset string) current,
    chain_member entities entity_id current →
    (∀ v, v ∈ visited → strict_ancestor entities v current) →
    size (dom entities ∖ visited) < n →
    ∃ rest, linked entities current rest ∧ length rest < n.
Proof.
  intros Hno. induction n as [|n IH]; intros visited current Hcur Hvis Hsize;
    [lia|].
  destruct (entities !! current) as [e|] eqn:He;
    [|exists []; simpl; rewrite He; split; [done|lia]].
  destruct (truthy_parent e) as [p|] eqn:Hp;
    [|exists []; simpl; rewrite He; split; [done|lia]].
  assert (parent_step entities current p) as Hstep by by exists e.
  assert (current ∉ visited) as Hfresh.
  { intros Hin. apply Hno. exists current. split; [done|]. by apply Hvis. }
  destruct (IH ({[current]} ∪ visited) p) as (rest & Hrest & Hlen).
  - eapply rtc_r; [exact Hcur|exact Hstep].
  - intros v [->%elem_of_singleton|Hv]%elem_of_union.
    + by apply tc_once.
    + eapply tc_r; [by apply Hvis|exact Hstep].
  - assert (dom entities ∖ ({[current]} ∪ visited) ⊂ dom entities ∖ visited)
      as Hsub.
    { split.
      - intros y [Hy Hn]%elem_of_difference. apply elem_of_difference.
        split; [done|]. intros Hv. apply Hn, elem_of_union. by right.
      - intros Hsup.
        assert (current ∈ dom entities ∖ visited) as Hc.
        { apply elem_of_difference. split; [|done].
          apply elem_of_dom. by rewrite He. }
        apply Hsup, elem_of_difference in Hc as [_ Hn].
        apply Hn, elem_of_union. left. by apply elem_of_singleton. }
    apply subset_size in Hsub. lia.
  - exists (p :: rest). split; [simpl; eauto|simpl; lia].
Qed.

(** With no cycle ahead the walk is over within one test of the loop
    condition more than the store has entities. *)
Lemma walk_ends_without_cycle entity_id :
  ¬ reaches_a_cycle entities entity_id →
  ∃ rest,
    get_ancestry entities (S (size entities)) entity_id
    = Some (entity_id :: rest).
Proof.
  intros Hno.
  destruct (no_cycle_linked entity_id Hno (S (size entities)) ∅ entity_id)
    as (rest & Hlinked & Hlen).
  - apply rtc_refl.
  - intros v Hv. by apply elem_of_empty in Hv.
  - rewrite difference_empty_L, size_dom. lia.
  - exists rest. apply linked_walk; [done|lia].
Qed.

(** With a cycle ahead the walk is never over. *)
Lemma walk_never_ends_on_cycle entity_id fuel :
  reaches_a_cycle entities entity_id →
  get_ancestry entities fuel entity_id = None.
Proof.
  intros (a & Ha & Hcycle).
  destruct (get_ancestry entities fuel entity_id) as [chain|] eqn:Hwalk;
    [|done].
  exfalso.
  destruct (get_ancestry_linked _ _ _ _ Hwalk) as (rest & -> & Hlinked).
  pose proof (chain_member_linked _ _ _ Hlinked Ha)
    as (nearer & farther & Heq)%list_elem_of_split.
  apply (linked_acyclic a farther); [|done].
  by eapply linked_chain_suffix.
Qed.

(** C2 (termination of the ancestry walk).  [get_ancestry] has no guard
    of any kind, so whether it returns is decided by the parent pointers
    alone: from an id that reaches no cycle the walk is over within one
    test of the loop condition more than the store has entities, and the
    two operations built on it come back; from an id whose parent
    pointers reach a cycle none of the three ever comes back. *)
Theorem ancestry_walk_ends_iff_no_cycle entity_id path_ new_value :
  (¬ reaches_a_cycle entities entity_id →
   ∃ chain result outcome,
     get_ancestry entities (S (size entities)) entity_id = Some chain
     ∧ compute_effective_policies entities (S (size entities)) entity_id
       = Some result
     ∧ validate_policy_change entities (S (size entities)) entity_id path_
                              new_value
       = Some outcome)
  ∧ (reaches_a_cycle entities entity_id →
     ∀ fuel,
       get_ancestry entities fuel entity_id = None
       ∧ compute_effective_policies entities fuel entity_id = None
       ∧ validate_policy_change entities fuel entity_id path_ new_value
         = None).
Proof.
  unfold compute_effective_policies, validate_policy_change. split.
  - intros (rest & ->)%walk_ends_without_cycle. by repeat eexists.
  - intros Hcycle fuel.
    by rewrite (walk_never_ends_on_cycle entity_id fuel Hcycle).
Qed.

End Order.

(** *** Validation along the parent relation *)

Section Ancestors.

Context (entities : gmap string EntityProfile).

Lemma check_rules_app entity path_ new_value l1 l2 :
  check_rules entity path_ new_value (l1 ++ l2) =
  match check_rules entity path_ new_value l1 with
  | Next => check_rules entity path_ new_value l2
  | stop => stop
  end.
Proof.
  induction l1 as [|r l1 IH]; simpl; [done|].
  by destruct (check_rule entity path_ new_value r).
Qed.

Lemma check_rules_raise entity path_ new_value rules x :
  check_rules entity path_ new_value rules = Raise x →
  ∃ q, q ∈ rules ∧ path q = path_
       ∧ check_rule entity path_ new_value q = Raise x.
Proof.
  induction rules as [|r rules IH]; simpl; [done|].
  destruct (check_rule entity path_ new_value r) eqn:Hr.
  - intros (q & Hq & H)%IH. exists q. split; [by right|done].
  - done.
  - intros [= <-]. exists r. split; [left|]. split; [|done].
    destruct (decide (path r = path_)) as [|Hne]; [done|].
    by rewrite check_rule_other_path in Hr.
Qed.

Lemma check_rules_deny entity path_ new_value rules v :
  check_rules entity path_ new_value rules = Return v → ∃ why, v = deny why.
Proof. rewrite check_rules_each. apply check_each_deny. Qed.

Lemma check_ancestors_app entity_id path_ new_value l1 l2 :
  check_ancestors entities entity_id path_ new_value (l1 ++ l2) =
  match check_ancestors entities entity_id path_ new_value l1 with
  | Next => check_ancestors entities entity_id path_ new_value l2
  | stop => stop
  end.
Proof.
  induction l1 as [|a l1 IH]; simpl; [done|].
  by destruct (check_ancestor entities entity_id path_ new_value a).
Qed.


Lemma check_ancestors_stop entity_id path_ new_value l stop :
  check_ancestors entities entity_id path_ new_value l = stop →
  stop ≠ Next →
  ∃ a, a ∈ l ∧ check_ancestor entities entity_id path_ new_value a = stop.
Proof.
  induction l as [|b l IH]; simpl; [by intros <-|].
  destruct (check_ancestor entities entity_id path_ new_value b) eqn:Hb.
  - intros H Hne. destruct (IH H Hne) as (a & Ha & Hc).
    exists a. split; [by right|done].
  - intros <- _. exists b. split; [left|done].
  - intros <- _. exists b. split; [left|done].
Qed.

Lemma check_ancestors_deny entity_id path_ new_value l v :
  check_ancestors entities entity_id path_ new_value l = Return v →
  ∃ why, v = deny why.
Proof. rewrite check_ancestors_each. apply check_each_deny. Qed.


Lemma check_ancestor_found entity_id path_ new_value a e :
  a ≠ entity_id → entities !! a = Some e →
  check_ancestor entities entity_id path_ new_value a =
  check_rules e path_ new_value (enforced_rules e).
Proof.
  intros Hne He. unfold check_ancestor. rewrite decide_False, He by done.
  apply check_rules_or_empty.
Qed.

Lemma check_ancestor_stop entity_id path_ new_value a stop :
  check_ancestor entities entity_id path_ new_value a = stop →
  stop ≠ Next →
  ∃ e, a ≠ entity_id ∧ entities !! a = Some e
       ∧ check_rules e path_ new_value (enforced_rules e) = stop.
Proof.
  unfold check_ancestor. destruct (decide (a = entity_id)); [by intros <-|].
  destruct (entities !! a) as [e|]; [|by intros <-].
  rewrite check_rules_or_empty. intros H _. by exists e.
Qed.



(** C1 (entity lock propagation).  Over a finished ancestry walk: when a
    strict ancestor [A] of [D], at any depth, has an enforced rule [r]
    with enforcement 'locked' at the path and the new value differs from
    the value of [r], the call never answers [allowed = True].  It
    returns a denial, or it raises; and it raises only when the check of
    an enforced rule at the path that is read before [r] raises: a rule
    of an ancestor nearer to [D] than [A], or a rule of [A] listed
    before [r]. *)
Theorem lock_of_an_ancestor_is_never_allowed
    fuel D path_ new_value ancestry A eA before r after :
  get_ancestry entities fuel D = Some ancestry →
  strict_ancestor entities D A →
  entities !! A = Some eA →
  enforced_rules eA = before ++ r :: after →
  path r = path_ →
  enforcement r = "locked" →
  py_eq new_value (value r) = false →
  (∃ why,
     validate_policy_change entities fuel D path_ new_value =
     Some (Returned (deny why)))
  ∨ (∃ x B eB q,
       validate_policy_change entities fuel D path_ new_value =
       Some (Raised x)
       ∧ entities !! B = Some eB
       ∧ path q = path_
       ∧ check_rule eB path_ new_value q = Raise x
       ∧ (strict_ancestor entities D B ∧ strict_ancestor entities B A
          ∧ q ∈ enforced_rules eB
          ∨ B = A ∧ q ∈ before)).
Proof.
  intros Hwalk HA HeA Hrules Hp Hk Hneq.
  destruct (strict_ancestor_split _ _ _ _ _ Hwalk HA)
    as (nearer & farther & -> & HAD & Hnearer).
  unfold validate_policy_change. rewrite Hwalk.
  change (D :: nearer ++ A :: farther) with ((D :: nearer) ++ A :: farther).
  rewrite check_ancestors_app.
  destruct (check_ancestors entities D path_ new_value (D :: nearer))
    as [|v|x] eqn:Hnear.
  - cbn [check_ancestors].
    rewrite (check_ancestor_found _ _ _ _ eA) by done.
    rewrite Hrules, check_rules_app.
    destruct (check_rules eA path_ new_value before) as [|v|x] eqn:Hbefore.
    + left. cbn [check_rules]. unfold check_rule at 1.
      rewrite !decide_True by done. rewrite Hneq. simpl. eauto.
    + left. apply check_rules_deny in Hbefore as (why & ->). simpl. eauto.
    + right. apply check_rules_raise in Hbefore as (q & Hq & Hpq & Hc).
      exists x, A, eA, q. simpl. repeat split; try done. by right.
  - left. apply check_ancestors_deny in Hnear as (why & ->). simpl. eauto.
  - right. apply check_ancestors_stop in Hnear as (B & HB & Hc); [|done].
    apply check_ancestor_stop in Hc as (eB & HBD & HeB & Hc); [|done].
    apply check_rules_raise in Hc as (q & Hq & Hpq & Hc).
    exists x, B, eB, q. repeat split; try done. left.
    apply elem_of_cons in HB as [->|HB]; [done|].
    by apply Hnearer in HB as [? ?].
Qed.






Lemma nearest_rule_inv chain path_ e r :
  nearest_rule entities path_ chain = Some (e, r) →
  ∃ nearer a farther,
    chain = nearer ++ a :: farther
    ∧ entities !! a = Some e
    ∧ last_rule_at path_ (enforced_rules e) = Some r
    ∧ ∀ x ex rx, x ∈ nearer → entities !! x = Some ex →
                 rx ∈ enforced_rules ex → path rx ≠ path_.
Proof.
  induction chain as [|m chain IH]; [done|]. simpl.
  destruct (entities !! m) as [em|] eqn:Hm.
  - destruct (last _) as [rm|] eqn:Hlast.
    + intros [= <- <-]. exists [], m, chain. repeat split; try done.
      intros x ex rx Hx. by apply elem_of_nil in Hx.
    + intros (nearer & a & farther & -> & Ha & Hl & Hnear)%IH.
      exists (m :: nearer), a, farther. repeat split; try done.
      intros x ex rx [->|Hx]%elem_of_cons Hex Hrx.
      * assert (ex = em) as -> by congruence.
        by apply (proj1 (last_rule_at_None path_ _) Hlast).
      * by eapply Hnear.
  - intros (nearer & a & farther & -> & Ha & Hl & Hnear)%IH.
    exists (m :: nearer), a, farther. repeat split; try done.
    intros x ex rx [->|Hx]%elem_of_cons Hex Hrx; [congruence|].
    by eapply Hnear.
Qed.

(** C5 (effective policies).  Over a finished ancestry walk the map
    returned binds a path exactly when some member of the chain (the
    entity or one of its ancestors) has an enforced rule at it; and what
    it holds there is the value, source display name and enforcement of
    the last rule at that path of the member closest to the leaf -- the
    member with a rule at the path of which no other such member is a
    descendant --, with [locked] true exactly for enforcement
    'locked'. *)
Theorem effective_policy_of_the_member_closest_to_the_leaf
    fuel entity_id chain :
  get_ancestry entities fuel entity_id = Some chain →
  ∃ result,
    compute_effective_policies entities fuel entity_id = Some result
    ∧ ∀ path_,
        (is_Some (result !! path_) ↔
         ∃ a e r, chain_member entities entity_id a
                  ∧ entities !! a = Some e
                  ∧ r ∈ enforced_rules e ∧ path r = path_)
        ∧ ∀ shown,
            result !! path_ = Some shown ↔
            ∃ a e r,
              chain_member entities entity_id a
              ∧ entities !! a = Some e
              ∧ last_rule_at path_ (enforced_rules e) = Some r
              ∧ (∀ c ec rc,
                   chain_member entities entity_id c →
                   strict_ancestor entities c a →
                   entities !! c = Some ec → rc ∈ enforced_rules ec →
                   path rc ≠ path_)
              ∧ shown = {| eff_value := value r;
                           source := display_name e;
                           eff_enforcement := enforcement r;
                           locked := bool_decide (enforcement r = "locked") |}.
Proof.
  intros Hchain. unfold compute_effective_policies. rewrite Hchain.
  eexists. split; [done|]. intros path_. rewrite lookup_effective.
  destruct (get_ancestry_linked _ _ _ _ Hchain) as (rest & -> & Hlinked).
  split.
  - rewrite fmap_is_Some, nearest_rule_is_Some. split.
    + intros (a & e & r & Ha & ?). exists a, e, r. split; [|done].
      by apply (linked_chain_member entities _ rest).
    + intros (a & e & r & Ha & ?). exists a, e, r. split; [|done].
      by apply (chain_member_linked entities).
  - intros shown. split.
    + destruct (nearest_rule entities path_ (entity_id :: rest))
        as [[e r]|] eqn:Hn; [|done].
      simpl. intros [= <-].
      apply nearest_rule_inv in Hn
        as (nearer & a & farther & Heq & He & Hl & Hnear).
      exists a, e, r. split; [|split; [done|split; [done|split; [|done]]]].
      * apply (linked_chain_member entities _ rest); [done|].
        rewrite Heq. apply elem_of_app. right. left.
      * intros c ec rc Hc Hca Hec Hrc. apply (Hnear c ec rc); [|done..].
        by apply (linked_between entities entity_id rest nearer a farther).
    + intros (a & e & r & Ha & He & Hl & Hclosest & ->).
      apply (chain_member_linked _ _ _ _ Hlinked) in Ha
        as (nearer & farther & Heq)%list_elem_of_split.
      rewrite Heq, (nearest_rule_split entities nearer a farther path_ e r);
        [done| |done|done].
      intros x ex rx Hx. apply Hclosest.
      * apply (linked_chain_member entities _ rest); [done|].
        rewrite Heq. apply elem_of_app. by left.
      * by apply (linked_nearer entities entity_id rest nearer a farther).
Qed.

End Ancestors.

(** *** The parent relation on the stores of the example *)

Section AncestorInstances.
Import Demo Cases.

(** The organization's lock on GDPR compliance reaches the ML team two
    levels down; and the department's lock on the key size denies
    although the organization's minimum, held as text and never
    reached, would raise. *)
Lemma lock_of_an_ancestor_is_never_allowed_acme :
  (∃ why,
     validate_policy_change acme 3 ml_team_id gdpr_path (VBool false) =
     Some (Returned (deny why)))
  ∧ (∃ why,
       validate_policy_change acme_lock_first 3 ml_team_id min_bits_path
                              (VInt 64) =
       Some (Returned (deny why))).
Proof.
  split.
  - destruct (lock_of_an_ancestor_is_never_allowed acme 3 ml_team_id
                gdpr_path (VBool false) acme_chain corp_id acme_corp []
                corp_gdpr_rule (tail acme_rules))
      as [Hdeny|(x & B & eB & q & Hraise & _)].
    + reflexivity.
    + apply (tc_l _ _ engineering_id).
      * exists ml_team. split; reflexivity.
      * apply tc_once. exists engineering. split; reflexivity.
    + reflexivity.
    + reflexivity.
    + reflexivity.
    + reflexivity.
    + reflexivity.
    + exact Hdeny.
    + vm_compute in Hraise. discriminate Hraise.
  - destruct (lock_of_an_ancestor_is_never_allowed acme_lock_first 3
                ml_team_id min_bits_path (VInt 64) acme_chain engineering_id
                engineering_locking (enforced_rules engineering)
                dept_bits_lock [])
      as [Hdeny|(x & B & eB & q & Hraise & _)].
    + reflexivity.
    + apply tc_once. exists ml_team. split; reflexivity.
    + reflexivity.
    + reflexivity.
    + reflexivity.
    + reflexivity.
    + reflexivity.
    + exact Hdeny.
    + vm_compute in Hraise. discriminate Hraise.
Defined.

(** The walk from the ML team ends on the store of the example; so does
    the walk from an id that is not filed, on the store with the cycle;
    and from the ML team on that store nothing ever comes back. *)
Lemma ancestry_walk_ends_iff_no_cycle_acme :
  (∃ chain result outcome,
     get_ancestry acme (S (size acme)) ml_team_id = Some chain
     ∧ compute_effective_policies acme (S (size acme)) ml_team_id
       = Some result
     ∧ validate_policy_change acme (S (size acme)) ml_team_id gdpr_path
                              (VBool false)
       = Some outcome)
  ∧ (∃ chain result outcome,
       get_ancestry acme_looped (S (size acme_looped)) ghost_id = Some chain
       ∧ compute_effective_policies acme_looped (S (size acme_looped))
                                    ghost_id
         = Some result
       ∧ validate_policy_change acme_looped (S (size acme_looped)) ghost_id
                                gdpr_path (VBool false)
         = Some outcome)
  ∧ ∀ fuel,
      get_ancestry acme_looped fuel ml_team_id = None
      ∧ compute_effective_policies acme_looped fuel ml_team_id = None
      ∧ validate_policy_change acme_looped fuel ml_team_id gdpr_path
                               (VBool false)
        = None.
Proof.
  split; [|split].
  - apply (proj1 (ancestry_walk_ends_iff_no_cycle acme ml_team_id gdpr_path
                    (VBool false))).
    intros Hcycle.
    discriminate (walk_never_ends_on_cycle acme ml_team_id 3 Hcycle).
  - apply (proj1 (ancestry_walk_ends_iff_no_cycle acme_looped ghost_id
                    gdpr_path (VBool false))).
    intros Hcycle.
    discriminate (walk_never_ends_on_cycle acme_looped ghost_id 1 Hcycle).
  - apply (proj2 (ancestry_walk_ends_iff_no_cycle acme_looped ml_team_id
                    gdpr_path (VBool false))).
    exists engineering_id. split.
    + apply rtc_once. exists ml_team. split; reflexivity.
    + apply (tc_l _ _ corp_id).
      * exists engineering. split; reflexivity.
      * apply tc_once. exists acme_corp_looped. split; reflexivity.
Defined.



(** The list of models is ruled at two levels: what the ML team sees is
    the department's list, not the organization's.  GDPR compliance is
    ruled by the organization alone and is shown with its lock. *)
Lemma effective_policy_of_the_member_closest_to_the_leaf_acme :
  ∃ result,
    compute_effective_policies acme_narrowed 3 ml_team_id = Some result
    ∧ result !! models_path
      = Some {| eff_value := VList [VStr "claude-3"];
                source := "Engineering";
                eff_enforcement := "subset";
                locked := false |}
    ∧ result !! gdpr_path
      = Some {| eff_value := VBool true;
                source := "ACME Corporation";
                eff_enforcement := "locked";
                locked := true |}
    ∧ result !! "policies.ml.gpuAccess" = None.
Proof.
  destruct (effective_policy_of_the_member_closest_to_the_leaf acme_narrowed
              3 ml_team_id acme_chain eq_refl) as (result & Hres & Hspec).
  exists result. split; [exact Hres|]. split; [|split].
  - apply (proj2 (Hspec models_path)).
    exists engineering_id, engineering_narrow, dept_models_rule.
    split; [|split; [reflexivity|split; [reflexivity|split; [|reflexivity]]]].
    + apply rtc_once. exists ml_team. split; reflexivity.
    + intros c ec rc Hc Hca Hec Hrc.
      apply (chain_member_in_walk acme_narrowed 3 ml_team_id acme_chain c
               eq_refl) in Hc.
      apply elem_of_cons in Hc as [->|Hc].
      { vm_compute in Hec. injection Hec as <-.
        repeat (apply elem_of_cons in Hrc as [->|Hrc]; [discriminate|]).
        by apply elem_of_nil in Hrc. }
      apply elem_of_cons in Hc as [->|Hc].
      { by apply (strict_ancestor_in_walk acme_narrowed 3 engineering_id
                    [engineering_id; corp_id] engineering_id eq_refl)
          in Hca as [_ ?]. }
      apply elem_of_cons in Hc as [->|Hc]; [|by apply elem_of_nil in Hc].
      apply (strict_ancestor_in_walk acme_narrowed 3 corp_id [corp_id]
               engineering_id eq_refl) in Hca as [Hca _].
      apply elem_of_cons in Hca as [Heq|Hca]; [discriminate Heq|].
      by apply elem_of_nil in Hca.
  - apply (proj2 (Hspec gdpr_path)).
    exists corp_id, acme_corp, corp_gdpr_rule.
    split; [|split; [reflexivity|split; [reflexivity|split; [|reflexivity]]]].
    + apply (rtc_l _ _ engineering_id).
      * exists ml_team. split; reflexivity.
      * apply rtc_once. exists engineering_narrow. split; reflexivity.
    + intros c ec rc Hc Hca Hec Hrc.
      apply (chain_member_in_walk acme_narrowed 3 ml_team_id acme_chain c
               eq_refl) in Hc.
      apply elem_of_cons in Hc as [->|Hc].
      { vm_compute in Hec. injection Hec as <-.
        repeat (apply elem_of_cons in Hrc as [->|Hrc]; [discriminate|]).
        by apply elem_of_nil in Hrc. }
      apply elem_of_cons in Hc as [->|Hc].
      { vm_compute in Hec. injection Hec as <-.
        repeat (apply elem_of_cons in Hrc as [->|Hrc]; [discriminate|]).
        by apply elem_of_nil in Hrc. }
      apply elem_of_cons in Hc as [->|Hc]; [|by apply elem_of_nil in Hc].
      by apply (strict_ancestor_in_walk acme_narrowed 3 corp_id [corp_id]
                  corp_id eq_refl) in Hca as [_ ?].
  - injection Hres as <-. reflexivity.
Defined.


(** On the store with the cycle the only rule at the block list's path
    is 'additive', and no verdict ever comes back for the ML team. *)
Lemma additive_rule_on_a_cycle_gets_no_verdict :
  (∀ a e r, acme_looped !! a = Some e → r ∈ enforced_rules e →
            path r = blocked_path → unvalidated_kind r = true)
  ∧ ∀ fuel,
      validate_policy_change acme_looped fuel ml_team_id blocked_path
                             (VList []) = None.
Proof.
  split.
  - assert (forallb
              (fun kv : string * EntityProfile =>
                 forallb (fun r => implb (bool_decide (path r = blocked_path))
                                         (unvalidated_kind r))
                         (enforced_rules kv.2))
              (map_to_list acme_looped) = true) as Hall by reflexivity.
    rewrite forallb_forall in Hall. intros a e r He Hr Hp.
    apply elem_of_map_to_list, list_elem_of_In, Hall in He. simpl in He.
    rewrite forallb_forall in He. apply list_elem_of_In, He in Hr.
    by rewrite bool_decide_eq_true_2 in Hr.
  - intros fuel. unfold validate_policy_change.
    by rewrite acme_looped_ancestry.
Qed.

(** On the store with the cycle the only rule at the key size's path is
    a numeric minimum, the new value is a string, and no verdict ever
    comes back for the ML team. *)
Lemma mismatched_value_on_a_cycle_gets_no_verdict :
  (∀ a e r, acme_looped !! a = Some e → r ∈ enforced_rules e →
            path r = min_bits_path → type_mismatch (VStr "128") r = true)
  ∧ ∀ fuel,
      validate_policy_change acme_looped fuel ml_team_id min_bits_path
                             (VStr "128") = None.
Proof.
  split.
  - assert (forallb
              (fun kv : string * EntityProfile =>
                 forallb (fun r => implb (bool_decide (path r = min_bits_path))
                                         (type_mismatch (VStr "128") r))
                         (enforced_rules kv.2))
              (map_to_list acme_looped) = true) as Hall by reflexivity.
    rewrite forallb_forall in Hall. intros a e r He Hr Hp.
    apply elem_of_map_to_list, list_elem_of_In, Hall in He. simpl in He.
    rewrite forallb_forall in He. apply list_elem_of_In, He in Hr.
    by rewrite bool_decide_eq_true_2 in Hr.
  - intros fuel. unfold validate_policy_change.
    by rewrite acme_looped_ancestry.
Qed.

End AncestorInstances.

End Hierarchy.
